(** * smart_ai_fitness_upgraded.py: parser, metrics and recommendation engines

    A shallow embedding of the pure functions of
    [smart_ai_fitness_upgraded.py] (the Streamlit user interface is left out)
    together with the properties the specification states about them.

    Numeric model.  Python's numbers are read in two ways.  In the exact
    reading ([PyNum]) an [int] or a [float] is a rational ([Q]), [/] is
    exact and [round(x, n)] rounds half to even on the decimal expansion; it
    serves the statements that do not depend on how a double rounds: the
    goal thresholds, the sidebar range, the session log.  In the binary64
    reading ([F64]) a [float] is an IEEE 754 double and an [int] is
    unbounded: every operation rounds to the nearest double, and Python's
    [OverflowError] and [ZeroDivisionError] are raised where the interpreter
    raises them.  The statements on the values [calculate_bmi] and
    [estimate_calories] return, and on their failures, are made in this
    reading.  [x ** 2] calls [pow] of the C library, whose last bit no
    standard fixes: [pow] is a parameter of [F64.calculate_bmi].

    Text model.  A Python [str] is read as the list of its code points, for
    texts whose code points are below 256.  The character classes ([\d],
    [\s]), [lower] and [strip] are those of Python on that range. *)

From Stdlib Require Import ZArith QArith Qround Qpower Qabs Lia Lqa.
From Stdlib Require Import Bool List Ascii String.
Import ListNotations.

Set Implicit Arguments.

(** ** Exceptions and results *)

Inductive exn : Type :=
| ValueError (msg : string)
| TypeError (msg : string)
| ZeroDivisionError
| OverflowError.

Inductive result (A : Type) : Type :=
| Ok (a : A)
| Raise (e : exn).

Arguments Ok {A} a.
Arguments Raise {A} e.

Definition bind {A B : Type} (m : result A) (k : A -> result B) : result B :=
  match m with
  | Ok a => k a
  | Raise e => Raise e
  end.

Notation "x <- m ;; k" := (bind m (fun x => k))
  (at level 61, m at next level, right associativity).

(** ** Python arithmetic on rationals *)

Module PyNum.

Local Open Scope Q_scope.

(** [a / b]: true division. *)
Definition truediv (a b : Q) : result Q :=
  if Qeq_bool b 0 then Raise ZeroDivisionError else Ok (a / b).

(** [a < b] and [a <= b] as booleans. *)
Definition ltb (a b : Q) : bool := negb (Qle_bool b a).
Definition leb (a b : Q) : bool := Qle_bool a b.

(** Nearest integer, ties to the even neighbour. *)
Definition round_half_even (x : Q) : Z :=
  let f := Qfloor x in
  match Qcompare (x - inject_Z f) (1 # 2) with
  | Lt => f
  | Gt => (f + 1)%Z
  | Eq => if Z.even f then f else (f + 1)%Z
  end.

(** [round(x, ndigits)]. *)
Definition round (x : Q) (ndigits : Z) : Q :=
  let p := 10 ^ ndigits in
  inject_Z (round_half_even (x * p)) / p.

End PyNum.

(** ** Python strings *)

Module PyStr.

Local Open Scope string_scope.

Definition code (c : ascii) : nat := nat_of_ascii c.

Definition between (lo hi n : nat) : bool := (lo <=? n)%nat && (n <=? hi)%nat.

(** [\d] *)
Definition is_digit (c : ascii) : bool := between 48 57 (code c).

(** [\s], and the characters [strip] removes: the whitespace of Unicode
    below code point 256, which includes U+0085 and U+00A0. *)
Definition is_space (c : ascii) : bool :=
  between 9 13 (code c) || between 28 31 (code c) || (code c =? 32)%nat ||
  (code c =? 133)%nat || (code c =? 160)%nat.

(** The letters [lower] changes: A to Z, and the capital letters of Latin-1,
    U+00C0 to U+00DE without the multiplication sign U+00D7. *)
Definition is_upper (c : ascii) : bool :=
  between 65 90 (code c) || between 192 214 (code c) || between 216 222 (code c).

Definition lower_char (c : ascii) : ascii :=
  if is_upper c then ascii_of_nat (code c + 32) else c.

(** [s.lower()] *)
Fixpoint lower (s : string) : string :=
  match s with
  | "" => ""
  | String c s' => String (lower_char c) (lower s')
  end.

Fixpoint lstrip (s : string) : string :=
  match s with
  | "" => ""
  | String c s' => if is_space c then lstrip s' else s
  end.

Fixpoint rstrip (s : string) : string :=
  match s with
  | "" => ""
  | String c s' =>
      match rstrip s' with
      | "" => if is_space c then "" else String c ""
      | r => String c r
      end
  end.

(** [s.strip()] *)
Definition strip (s : string) : string := rstrip (lstrip s).

(** [s.startswith(p)] *)
Fixpoint startswith (p s : string) : bool :=
  match p, s with
  | "", _ => true
  | String a p', String b s' => Ascii.eqb a b && startswith p' s'
  | String _ _, "" => false
  end.

(** [needle in hay] *)
Fixpoint contains (needle hay : string) : bool :=
  startswith needle hay ||
  match hay with
  | "" => false
  | String _ hay' => contains needle hay'
  end.

(** [sep.join(parts)] *)
Definition join (sep : string) (parts : list string) : string :=
  String.concat sep parts.

Definition digit_value (c : ascii) : Z := Z.of_nat (code c - 48).

Fixpoint all (p : ascii -> bool) (s : string) : bool :=
  match s with
  | "" => true
  | String c s' => p c && all p s'
  end.

Fixpoint digits_value (acc : Z) (s : string) : Z :=
  match s with
  | "" => acc
  | String c s' => digits_value (10 * acc + digit_value c) s'
  end.

(** [int(s)] on the literals the duration pattern can capture: a non-empty
    run of decimal digits.  Any other argument is reported as the
    [ValueError] Python raises for a malformed literal. *)
Definition int (s : string) : result Z :=
  match s with
  | "" => Raise (ValueError "invalid literal for int() with base 10")
  | _ => if all is_digit s then Ok (digits_value 0 s)
         else Raise (ValueError "invalid literal for int() with base 10")
  end.

End PyStr.

(** ** A backtracking regular-expression matcher (module [re])

    The matcher enumerates, in the priority order of a backtracking engine
    (greedy repetition, left alternative first), every way the pattern can
    match at the start of the subject.  [search] takes the first way at the
    leftmost start position. *)

Module Re.

Local Open Scope string_scope.

Inductive regex : Type :=
| Eps
| Chr (c : ascii)
| Class (p : ascii -> bool)
| Cat (r1 r2 : regex)
| Alt (r1 r2 : regex)
| Star (r : regex)
| Group (n : nat) (r : regex).

(** [r+], [r?] and a literal word *)
Definition Plus (r : regex) : regex := Cat r (Star r).
Definition Opt (r : regex) : regex := Alt r Eps.
Fixpoint Lit (s : string) : regex :=
  match s with
  | "" => Eps
  | String c s' => Cat (Chr c) (Lit s')
  end.

Definition captures : Type := list (nat * string).

(** One way of matching: the text consumed, the text left, the groups. *)
Definition way : Type := (string * string * captures)%type.

Definition extend (c1 : string) (w : way) : way :=
  let '(c2, s2, cs2) := w in (c1 ++ c2, s2, cs2).

Definition record (n : nat) (w : way) : way :=
  let '(c, s, cs) := w in (c, s, (n, c) :: cs).

Definition one_char (p : ascii -> bool) (s : string) (cs : captures) : list way :=
  match s with
  | String d s' => if p d then [(String d "", s', cs)] else []
  | "" => []
  end.

Definition and_then (ws : list way) (k : string -> captures -> list way) : list way :=
  flat_map (fun w : way => let '(c1, s1, cs1) := w in map (extend c1) (k s1 cs1)) ws.

Definition nonempty (w : way) : bool :=
  let '(c, _, _) := w in negb (c =? "").

(** Greedy repetition of [m]: iterations that consume nothing are dropped,
    so [fuel = length s] iterations are enough. *)
Fixpoint star_loop (m : string -> captures -> list way) (fuel : nat)
    (s : string) (cs : captures) : list way :=
  match fuel with
  | O => [("", s, cs)]
  | S fuel' =>
      and_then (filter nonempty (m s cs)) (star_loop m fuel') ++ [("", s, cs)]
  end.

Fixpoint rmatch (r : regex) (s : string) (cs : captures) : list way :=
  match r with
  | Eps => [("", s, cs)]
  | Chr c => one_char (Ascii.eqb c) s cs
  | Class p => one_char p s cs
  | Cat r1 r2 => and_then (rmatch r1 s cs) (rmatch r2)
  | Alt r1 r2 => rmatch r1 s cs ++ rmatch r2 s cs
  | Star r1 => star_loop (rmatch r1) (String.length s) s cs
  | Group n r1 => map (record n) (rmatch r1 s cs)
  end.

(** A match object: group 0 and the numbered groups. *)
Record Match : Type := { whole : string; groups : captures }.

Fixpoint lookup (n : nat) (cs : captures) : option string :=
  match cs with
  | [] => None
  | (k, v) :: cs' => if (k =? n)%nat then Some v else lookup n cs'
  end.

(** [m.group(n)] *)
Definition group (m : Match) (n : nat) : option string :=
  match n with
  | O => Some (whole m)
  | _ => lookup n (groups m)
  end.

(** [re.match(r, s)] *)
Definition match_here (r : regex) (s : string) : option Match :=
  match rmatch r s [] with
  | (c, _, cs) :: _ => Some {| whole := c; groups := cs |}
  | [] => None
  end.

(** [re.search(r, s)] *)
Fixpoint search (r : regex) (s : string) : option Match :=
  match match_here r s with
  | Some m => Some m
  | None =>
      match s with
      | "" => None
      | String _ s' => search r s'
      end
  end.

End Re.

(** ** Dictionaries in insertion order *)

Module Dict.

Definition dict (V : Type) : Type := list (string * V).

(** Iterating a dictionary yields its keys in insertion order. *)
Definition keys {V : Type} (d : dict V) : list string := map fst d.

(** [d.get(k, default)] *)
Fixpoint get {V : Type} (d : dict V) (k : string) (default : V) : V :=
  match d with
  | [] => default
  | (k', v) :: d' => if String.eqb k' k then v else get d' k default
  end.

End Dict.

(** ** The program *)

Import PyNum PyStr.

Local Open Scope string_scope.

Definition nl : string := String (ascii_of_nat 10) "".

(** MET values for expanded activities *)
Definition MET_VALUES : Dict.dict Q :=
  [ ("walking", 3.5%Q); ("running", 7.5%Q); ("cycling", 6.8%Q);
    ("swimming", 5.8%Q); ("yoga", 2.5%Q); ("weights", 4.0%Q);
    ("dancing", 5.0%Q); ("aerobics", 6.0%Q); ("hiking", 6.0%Q);
    ("jumping rope", 10.0%Q); ("rowing", 7.0%Q); ("riding", 4.5%Q);
    ("skating", 7.0%Q); ("football", 8.0%Q); ("basketball", 6.5%Q) ].

Record topic : Type := { description : string; tips : list string }.

Definition HEALTH_KNOWLEDGE_BASE : Dict.dict topic :=
  [ ("diabetes",
     {| description :=
          "A chronic condition that affects how your body turns food into energy.";
        tips :=
          [ "Follow a low-carb, high-fiber diet.";
            "Exercise regularly (e.g., walking, cycling).";
            "Monitor blood sugar daily.";
            "Avoid sugary snacks and beverages." ] |});
    ("high blood pressure",
     {| description :=
          "Also called hypertension; can lead to heart issues if untreated.";
        tips :=
          [ "Reduce salt intake.";
            "Exercise daily for 30 minutes.";
            "Avoid smoking and alcohol.";
            "Eat potassium-rich foods like bananas." ] |});
    ("obesity",
     {| description := "A medical condition involving excess body fat.";
        tips :=
          [ "Eat in a calorie deficit.";
            "Avoid processed food and sugars.";
            "Drink water before meals.";
            "Walk at least 10,000 steps daily." ] |});
    ("headache",
     {| description :=
          "Pain in the head region, often due to stress, dehydration, or sleep issues.";
        tips :=
          [ "Drink plenty of water.";
            "Practice stress-relieving activities like meditation.";
            "Avoid excessive screen time.";
            "Get 7-8 hours of sleep." ] |});
    ("fatigue",
     {| description := "Feeling overtired, with low energy and motivation.";
        tips :=
          [ "Ensure consistent sleep schedule (7-8 hrs).";
            "Stay hydrated.";
            "Limit caffeine late in the day.";
            "Take short walks to refresh energy." ] |}) ].

(** The pattern [(\d+)\s*(min|minutes?)]. *)
Definition duration_re : Re.regex :=
  Re.Cat (Re.Group 1 (Re.Plus (Re.Class is_digit)))
    (Re.Cat (Re.Star (Re.Class is_space))
       (Re.Group 2 (Re.Alt (Re.Lit "min")
                      (Re.Cat (Re.Lit "minute") (Re.Opt (Re.Chr "s")))))).

Definition missing_duration_message : string :=
  "Please include duration like '30 minutes' in your input.".

Definition unknown_activity_message : string :=
  "Couldn't detect a known activity. Try including words like running, cycling, dancing, etc.".

(** The two failures of the parser; both are [ValueError]s in the source and
    differ by their message. *)
Definition MissingDurationError : exn := ValueError missing_duration_message.
Definition UnknownActivityError : exn := ValueError unknown_activity_message.

(** [int(duration_match.group(1))] *)
Definition int_group (m : Re.Match) (n : nat) : result Z :=
  match Re.group m n with
  | Some g => int g
  | None => Raise (TypeError "int() argument must be a string, not 'NoneType'")
  end.

(** [next((a for a in MET_VALUES if a in text.lower()), None)] *)
Definition first_activity (text : string) : option string :=
  find (fun a => contains a (lower text)) (Dict.keys MET_VALUES).

Definition parse_input (text : string) : result (string * Z) :=
  match Re.search duration_re (lower text) with
  | None => Raise MissingDurationError
  | Some duration_match =>
      duration <- int_group duration_match 1 ;;
      match first_activity text with
      | None => Raise UnknownActivityError
      | Some "" => Raise UnknownActivityError
      | Some activity => Ok (activity, duration)
      end
  end.

Definition estimate_calories (activity : string) (duration weight : Q) : result Q :=
  let met := Dict.get MET_VALUES activity 3.5%Q in
  hours <- truediv duration 60 ;;
  Ok (round (met * weight * hours) 2).

Definition calculate_bmi (weight height_cm : Q) : result Q :=
  height_m <- truediv height_cm 100 ;;
  bmi <- truediv weight (height_m ^ 2) ;;
  Ok (round bmi 2).

Definition give_food_recommendation (goal : string) : list string :=
  Dict.get
    [ ("gain", [ "Peanut butter toast"; "Chicken breast + rice";
                 "Oats with banana"; "Eggs"; "Milkshake" ]);
      ("maintain", [ "Veg sandwich"; "Tofu stir-fry"; "Paneer salad";
                     "Fruit bowl"; "Greek yogurt" ]);
      ("lose", [ "Boiled eggs"; "Soup"; "Veg wrap"; "Cucumber salad";
                 "Green tea" ]) ]
    goal [].

Definition determine_goal (bmi : Q) : string :=
  if ltb bmi 18.5 then "gain"
  else if leb bmi 24.9 then "maintain"
  else "lose".

Definition not_found_message : string :=
  "Sorry, we couldn’t find suggestions for that issue. Try general terms like 'diabetes', 'headache', or 'fatigue'.".

(** The text built for one knowledge-base entry. *)
Definition format_topic (result : topic) : string :=
  let tips := join nl (map (fun tip => "- " ++ tip) (tips result)) in
  "**" ++ description result ++ "**" ++ nl ++ nl ++ "**Tips:**" ++ nl ++ tips.

(** The [for key in HEALTH_KNOWLEDGE_BASE] loop: the first key found in the
    query returns. *)
Fixpoint suggestions_loop (kb : Dict.dict topic) (query : string) : option string :=
  match kb with
  | [] => None
  | (key, result) :: kb' =>
      if contains key query then Some (format_topic result)
      else suggestions_loop kb' query
  end.

Definition fetch_health_suggestions (query : string) : string :=
  let query := strip (lower query) in
  match suggestions_loop HEALTH_KNOWLEDGE_BASE query with
  | Some suggestion => suggestion
  | None => not_found_message
  end.

(** ** Python arithmetic on doubles

    A Python [float] is an IEEE 754 binary64 value: a signed zero, a finite
    value [m * 2 ^ e] with [m < 2 ^ 53] and [-1074 <= e <= 971], an
    infinity, or a NaN.  An operation rounds its exact result to the nearest
    double, ties to the even significand.  An [int] is unbounded; it is
    converted when it meets a float, and the conversion, like [int / int],
    raises [OverflowError] beyond the range of doubles. *)

Module F64.

Local Open Scope Q_scope.

Inductive float : Type :=
| Zero (negative : bool)
| Finite (negative : bool) (m : positive) (e : Z)
| Infinity (negative : bool)
| NaN.

Definition magnitude (m : positive) (e : Z) : Q := inject_Z (Zpos m) * 2 ^ e.

(** The exponent of the leading bit of a positive rational. *)
Definition ilog2 (q : Q) : Z :=
  let l := (Z.log2 (Qnum q) - Z.log2 (Zpos (Qden q)))%Z in
  if Qle_bool (2 ^ l) q then l else (l - 1)%Z.

(** The exponent of the last bit of the double nearest to [q]: 52 below the
    leading bit, and never below that of the subnormal numbers. *)
Definition exponent (q : Q) : Z := Z.max (ilog2 q - 52) (-1074).

Definition significand (q : Q) : Z := round_half_even (q / 2 ^ exponent q).

(** The double nearest to the magnitude [q], with the sign given. *)
Definition nearest (negative : bool) (q : Q) : float :=
  if Qle_bool q 0 then Zero negative
  else
    let m := significand q in
    let e := exponent q in
    let '(m, e) := if (m =? 2 ^ 53)%Z then (2 ^ 52, e + 1)%Z else (m, e) in
    match m with
    | Zpos p => if (971 <? e)%Z then Infinity negative else Finite negative p e
    | _ => Zero negative
    end.

Definition is_zero (x : float) : bool :=
  match x with Zero _ => true | _ => false end.

(** [- x] *)
Definition opp (x : float) : float :=
  match x with
  | Zero s => Zero (negb s)
  | Finite s m e => Finite (negb s) m e
  | Infinity s => Infinity (negb s)
  | NaN => NaN
  end.

(** [x * y] on floats: it never raises. *)
Definition fmul (x y : float) : float :=
  match x, y with
  | NaN, _ | _, NaN => NaN
  | Infinity _, Zero _ | Zero _, Infinity _ => NaN
  | Infinity s, Infinity t | Infinity s, Finite t _ _
  | Finite s _ _, Infinity t => Infinity (xorb s t)
  | Zero s, Zero t | Zero s, Finite t _ _ | Finite s _ _, Zero t =>
      Zero (xorb s t)
  | Finite s m e, Finite t n f =>
      nearest (xorb s t) (magnitude m e * magnitude n f)
  end.

(** The quotient of IEEE 754; Python raises on a zero divisor before it
    comes to it, see [truediv]. *)
Definition fdiv (x y : float) : float :=
  match x, y with
  | NaN, _ | _, NaN => NaN
  | Infinity _, Infinity _ | Zero _, Zero _ => NaN
  | Infinity s, Zero t | Infinity s, Finite t _ _
  | Finite s _ _, Zero t => Infinity (xorb s t)
  | Zero s, Infinity t | Finite s _ _, Infinity t
  | Zero s, Finite t _ _ => Zero (xorb s t)
  | Finite s m e, Finite t n f =>
      nearest (xorb s t) (magnitude m e / magnitude n f)
  end.

(** The numbers the functions receive. *)
Inductive num : Type :=
| Int (n : Z)
| Float (x : float).

Definition finite_or_overflow (x : float) : result float :=
  match x with
  | Infinity _ => Raise OverflowError
  | _ => Ok x
  end.

(** [float(n)]: "int too large to convert to float". *)
Definition float_of_int (n : Z) : result float :=
  finite_or_overflow (nearest (n <? 0)%Z (inject_Z (Z.abs n))).

Definition to_float (a : num) : result float :=
  match a with
  | Int n => float_of_int n
  | Float x => Ok x
  end.

(** [n / d] on two ints: the exact quotient, rounded once. *)
Definition int_truediv (n d : Z) : result float :=
  if (d =? 0)%Z then Raise ZeroDivisionError
  else finite_or_overflow
         (nearest (xorb (n <? 0)%Z (d <? 0)%Z)
            (inject_Z (Z.abs n) / inject_Z (Z.abs d))).

(** [a / b] *)
Definition truediv (a b : num) : result float :=
  match a, b with
  | Int n, Int d => int_truediv n d
  | _, _ =>
      x <- to_float a ;;
      y <- to_float b ;;
      if is_zero y then Raise ZeroDivisionError else Ok (fdiv x y)
  end.

(** [x * b] with a float on the left. *)
Definition mul (x : float) (b : num) : result float :=
  y <- to_float b ;; Ok (fmul x y).

(** [- a] *)
Definition neg (a : num) : num :=
  match a with
  | Int n => Int (- n)
  | Float x => Float (opp x)
  end.

(** [round(x, ndigits)] on a float: the decimal with [ndigits] places
    nearest to the exact value of [x], ties to even, then the double nearest
    to that decimal. *)
Definition round (x : float) (ndigits : Z) : result float :=
  match x with
  | Finite s m e =>
      if (323 <? ndigits)%Z then Ok x
      else if (ndigits <? -308)%Z then Ok (Zero s)
      else
        let p := 10 ^ ndigits in
        finite_or_overflow
          (nearest s (inject_Z (round_half_even (magnitude m e * p)) / p))
  | _ => Ok x
  end.

(** A decimal literal of the source: the double nearest to it. *)
Definition literal (q : Q) : float :=
  nearest (negb (Qle_bool 0 q)) (Qabs q).

Definition one : float := Finite false (2 ^ 52) (-52).
Definition two : float := Finite false (2 ^ 52) (-51).

Definition is_one (x : float) : bool :=
  match x with
  | Finite false m e => (Zpos m =? 2 ^ 52)%Z && (e =? -52)%Z
  | _ => false
  end.

Section Libm.

(** [pow] of the C library, on a positive finite base. *)
Variable libm_pow : float -> float -> float.

(** [x ** 2]: the interpreter settles NaN, the infinities, zero and one,
    drops the sign for the even exponent, and calls [pow]; an infinite
    result of [pow] is an [OverflowError]. *)
Definition pow_2 (x : float) : result float :=
  match x with
  | NaN => Ok NaN
  | Infinity _ => Ok (Infinity false)
  | Zero _ => Ok (Zero false)
  | Finite _ m e =>
      let a := Finite false m e in
      if is_one a then Ok one
      else finite_or_overflow (libm_pow a two)
  end.

Definition calculate_bmi (weight height_cm : num) : result float :=
  height_m <- truediv height_cm (Int 100) ;;
  squared <- pow_2 height_m ;;
  bmi <- truediv weight (Float squared) ;;
  round bmi 2.

End Libm.

(** A [pow] that rounds the exact square to the nearest double. *)
Definition correctly_rounded_square (x y : float) : float := fmul x x.

(** The catalog, its literals read as doubles. *)
Definition MET_VALUES : Dict.dict float :=
  map (fun kv => (fst kv, literal (snd kv))) MET_VALUES.

Definition estimate_calories (activity : string) (duration weight : num)
  : result float :=
  let met := Dict.get MET_VALUES activity (literal 3.5) in
  product <- mul met weight ;;
  hours <- truediv duration (Int 60) ;;
  calories <- mul product (Float hours) ;;
  round calories 2.

(** *** Vocabulary for the statements on doubles *)

(** A double the format holds. *)
Definition representable (x : float) : Prop :=
  match x with
  | Finite _ m e => (Zpos m < 2 ^ 53)%Z /\ (-1074 <= e <= 971)%Z
  | _ => True
  end.

(** A number that converts to a double: any float, and an int below
    [2 ^ 1023] in absolute value. *)
Definition fits (a : num) : Prop :=
  match a with
  | Int n => (Z.abs n < 2 ^ 1023)%Z
  | Float _ => True
  end.

(** The doubles 60.0 and 100.0. *)
Definition sixty : float := Finite false 8444249301319680 (-47).
Definition hundred : float := Finite false 7036874417766400 (-46).

(** The rational a finite double stands for. *)
Definition value (x : float) : Q :=
  match x with
  | Finite false m e => magnitude m e
  | Finite true m e => - magnitude m e
  | _ => 0
  end.

(** [x <= y] on floats. *)
Definition leb (x y : float) : bool :=
  match x, y with
  | NaN, _ | _, NaN => false
  | Infinity true, _ => true
  | _, Infinity false => true
  | Infinity false, _ => false
  | _, Infinity true => false
  | _, _ => Qle_bool (value x) (value y)
  end.






End F64.

(** * Specification vocabulary *)

(** [matches r c cs cs']: the pattern [r] matches exactly the text [c],
    turning the groups [cs] into [cs']. *)
Inductive matches : Re.regex -> string -> Re.captures -> Re.captures -> Prop :=
| MEps cs : matches Re.Eps "" cs cs
| MChr c cs : matches (Re.Chr c) (String c "") cs cs
| MClass (p : ascii -> bool) c cs :
    p c = true -> matches (Re.Class p) (String c "") cs cs
| MCat r1 r2 c1 c2 cs cs1 cs2 :
    matches r1 c1 cs cs1 -> matches r2 c2 cs1 cs2 ->
    matches (Re.Cat r1 r2) (c1 ++ c2) cs cs2
| MAltL r1 r2 c cs cs' : matches r1 c cs cs' -> matches (Re.Alt r1 r2) c cs cs'
| MAltR r1 r2 c cs cs' : matches r2 c cs cs' -> matches (Re.Alt r1 r2) c cs cs'
| MStarStop r cs : matches (Re.Star r) "" cs cs
| MStarStep r c1 c2 cs cs1 cs2 :
    matches r c1 cs cs1 -> c1 <> "" -> matches (Re.Star r) c2 cs1 cs2 ->
    matches (Re.Star r) (c1 ++ c2) cs cs2
| MGroup n r c cs cs' :
    matches r c cs cs' -> matches (Re.Group n r) c cs ((n, c) :: cs').

(** [needle] occurs in [hay]. *)
Definition substring (needle hay : string) : Prop :=
  exists pre post, hay = pre ++ needle ++ post.

(** A duration phrase starts right after [pre]: the digits [ds], then any
    number of whitespace characters, then the letters "min". *)
Definition duration_at (s pre ds : string) : Prop :=
  exists ws post,
    s = pre ++ ds ++ ws ++ "min" ++ post /\
    ds <> "" /\ all is_digit ds = true /\ all is_space ws = true.

Definition has_duration (s : string) : Prop :=
  exists pre ds, duration_at s pre ds.

(** [ds] is the digit run of the leftmost duration phrase of [s]. *)
Definition first_duration (s ds : string) : Prop :=
  exists pre,
    duration_at s pre ds /\
    forall pre' ds', duration_at s pre' ds' ->
                     (String.length pre <= String.length pre')%nat.

(** The value of a run of decimal digits. *)
Definition decimal (ds : string) : Z := digits_value 0 ds.

(** [k] is the first of [keys], in their order, that occurs in [s]. *)
Definition first_key_in (keys : list string) (s k : string) : Prop :=
  exists before after,
    keys = (before ++ k :: after)%list /\ substring k s /\
    forall k', In k' before -> ~ substring k' s.

Definition no_key_in (keys : list string) (s : string) : Prop :=
  forall k, In k keys -> ~ substring k s.

(** The duration pattern as the specification words it: one or more digits,
    whitespace, and the token "min" or "minutes". *)
Definition spec_duration_re : Re.regex :=
  Re.Cat (Re.Group 1 (Re.Plus (Re.Class is_digit)))
    (Re.Cat (Re.Plus (Re.Class is_space))
       (Re.Group 2 (Re.Alt (Re.Lit "min") (Re.Lit "minutes")))).

Definition fails {A : Type} (r : result A) : Prop := exists e, r = Raise e.

(** * The session log and the user interface

    The script is run again on every interaction; the log lives in the
    session state between runs.  A data frame is read as the list of its
    rows.  The text of the success message, which prints a float, is not
    modelled: the feedback records the values it interpolates. *)

Definition is_lower (c : ascii) : bool := between 97 122 (code c).

Definition upper_char (c : ascii) : ascii :=
  if is_lower c then ascii_of_nat (code c - 32) else c.

(** [s.capitalize()] *)
Definition capitalize (s : string) : string :=
  match s with
  | "" => ""
  | String c s' => String (upper_char c) (lower s')
  end.

(** One row of the log, with the columns of [init_data]. *)
Record entry : Type := {
  Date : string;
  Activity : string;
  Duration : Z;
  Calories : Q;
  Weight : Q;
  Height : Q;
  BMI : Q
}.










Fixpoint last_char (s : string) : option ascii :=
  match s with
  | "" => None
  | String c "" => Some c
  | String _ s' => last_char s'
  end.

(** A word that neither starts nor ends with whitespace. *)
Definition tight (k : string) : bool :=
  match k, last_char k with
  | String c _, Some c' => negb (is_space c) && negb (is_space c')
  | _, _ => false
  end.

(** * Properties *)

(** ** Rounding *)

Section Rounding.

Local Open Scope Q_scope.

Lemma round_half_even_comp (x y : Q) :
  x == y -> round_half_even x = round_half_even y.
Proof.
  intros E. unfold round_half_even.
  rewrite (Qfloor_comp _ _ E).
  assert (C : Qcompare (x - inject_Z (Qfloor y)) (1 # 2) =
              Qcompare (y - inject_Z (Qfloor y)) (1 # 2)).
  { apply Qcompare_comp; [rewrite E|]; reflexivity. }
  now rewrite C.
Qed.

Lemma round_half_even_mono (x y : Q) :
  x <= y -> (round_half_even x <= round_half_even y)%Z.
Proof.
  intros Hxy. unfold round_half_even.
  pose proof (Qfloor_resp_le _ _ Hxy) as Hf.
  destruct (Z.eq_dec (Qfloor x) (Qfloor y)) as [E | N].
  - rewrite <- E.
    destruct (Qcompare_spec (x - inject_Z (Qfloor x)) (1 # 2)),
             (Qcompare_spec (y - inject_Z (Qfloor x)) (1 # 2));
      destruct (Z.even (Qfloor x)); try lia; exfalso; lra.
  - destruct (Qcompare (x - inject_Z (Qfloor x)) (1 # 2)),
             (Qcompare (y - inject_Z (Qfloor y)) (1 # 2));
      destruct (Z.even (Qfloor x)), (Z.even (Qfloor y)); lia.
Qed.



End Rounding.

(** ** Dictionary lookup *)

Section DictFacts.

Variable V : Type.

Lemma get_absent (d : Dict.dict V) (k : string) (default : V) :
  ~ In k (Dict.keys d) -> Dict.get d k default = default.
Proof.
  induction d as [| [k' v] d IH]; simpl; intros H; [reflexivity|].
  destruct (String.eqb_spec k' k) as [E | N].
  - exfalso. apply H. now left.
  - apply IH. intros Hin. apply H. now right.
Qed.

Lemma get_present (d : Dict.dict V) (k : string) (v default : V) :
  NoDup (Dict.keys d) -> In (k, v) d -> Dict.get d k default = v.
Proof.
  induction d as [| [k' v'] d IH]; simpl; intros Hnd Hin; [contradiction|].
  inversion Hnd as [| ? ? Hk' Hnd']; subst.
  destruct Hin as [E | Hin].
  - inversion E; subst. now rewrite String.eqb_refl.
  - destruct (String.eqb_spec k' k) as [E | N].
    + exfalso. subst k'. apply Hk'.
      change k with (fst (k, v)). now apply in_map.
    + now apply IH.
Qed.


End DictFacts.

Lemma MET_VALUES_keys_distinct : NoDup (Dict.keys MET_VALUES).
Proof.
  repeat constructor; simpl; intuition discriminate.
Qed.

(** ** Metrics engine *)

Section Metrics.

Local Open Scope Q_scope.





End Metrics.

(** ** Claims on the metrics engine *)

Section MetricsClaims.

Local Open Scope Q_scope.

(** C1, as stated, fails: a negative height is not rejected.
    [calculate_bmi(70, -170)] returns 24.22, in the exact reading and on
    doubles (where [(-1.7) ** 2] is the double nearest to the square). *)
Lemma calculate_bmi_negative_height_accepted :
  -170 <= 0 /\ calculate_bmi 70 (-170) = Ok 24.22 /\
  ~ fails (calculate_bmi 70 (-170)) /\
  F64.calculate_bmi F64.correctly_rounded_square (F64.Int 70) (F64.Int (-170)) =
  Ok (F64.literal 24.22).
Proof.
  split; [discriminate|]. split; [reflexivity|]. split.
  - intros [e H]. discriminate H.
  - vm_compute. reflexivity.
Qed.

(** C4: [determine_goal] is "gain" below 18.5, "maintain" from 18.5 to 24.9
    with both ends included, and "lose" above 24.9. *)
Theorem determine_goal_thresholds :
  (forall bmi : Q,
      (bmi < 18.5 -> determine_goal bmi = "gain"%string) /\
      (18.5 <= bmi /\ bmi <= 24.9 -> determine_goal bmi = "maintain"%string) /\
      (24.9 < bmi -> determine_goal bmi = "lose"%string)) /\
  determine_goal 18.4 = "gain"%string /\
  determine_goal 18.5 = "maintain"%string /\
  determine_goal 24.9 = "maintain"%string /\
  determine_goal 25.0 = "lose"%string.
Proof.
  split; [| repeat split].
  intros bmi. unfold determine_goal, ltb, leb.
  destruct (Qle_bool 18.5 bmi) eqn:E1; destruct (Qle_bool bmi 24.9) eqn:E2;
    simpl;
    repeat match goal with
           | H : Qle_bool _ _ = true |- _ => apply Qle_bool_iff in H
           | H : Qle_bool ?a ?b = false |- _ =>
               assert (~ a <= b) by (rewrite <- Qle_bool_iff; congruence);
               clear H
           end;
    repeat split; intros; try reflexivity; exfalso; lra.
Qed.

Lemma determine_goal_thresholds_witness :
  determine_goal 17 = "gain"%string /\
  determine_goal 22 = "maintain"%string /\
  determine_goal 30 = "lose"%string.
Proof.
  destruct determine_goal_thresholds as [H _].
  split; [| split].
  - apply (proj1 (H 17)). reflexivity.
  - apply (proj1 (proj2 (H 22))). split; discriminate.
  - apply (proj2 (proj2 (H 30))). reflexivity.
Defined.

End MetricsClaims.

(** ** The calorie estimate *)

Section Calories.

Local Open Scope Q_scope.


End Calories.

(** ** Strings *)

Section StringFacts.

Local Open Scope string_scope.

Lemma append_assoc (a b c : string) : (a ++ b) ++ c = a ++ b ++ c.
Proof. induction a as [| x a IH]; simpl; [reflexivity | now rewrite IH]. Qed.

Lemma append_empty_r (a : string) : a ++ "" = a.
Proof. induction a as [| x a IH]; simpl; [reflexivity | now rewrite IH]. Qed.

Lemma length_append (a b : string) :
  String.length (a ++ b) = (String.length a + String.length b)%nat.
Proof. induction a as [| x a IH]; simpl; [reflexivity | now rewrite IH]. Qed.

Lemma append_cancel_l (a b c : string) : a ++ b = a ++ c -> b = c.
Proof.
  induction a as [| x a IH]; simpl; intros H; [assumption|].
  inversion H. now apply IH.
Qed.

Lemma startswith_iff (p s : string) :
  startswith p s = true <-> exists post, s = p ++ post.
Proof.
  revert s. induction p as [| a p IH]; intros s; simpl.
  - split; [intros _; now exists s | reflexivity].
  - destruct s as [| b s].
    + split; [discriminate | intros [post H]; discriminate H].
    + rewrite andb_true_iff, IH. split.
      * intros [E [post H]]. apply Ascii.eqb_eq in E. subst. now exists post.
      * intros [post H]. inversion H; subst. split.
        -- apply Ascii.eqb_refl.
        -- now exists post.
Qed.

Lemma contains_iff (needle hay : string) :
  contains needle hay = true <-> substring needle hay.
Proof.
  unfold substring. induction hay as [| b hay IH].
  - simpl. rewrite orb_false_r, startswith_iff. split.
    + intros [post H]. now exists "", post.
    + intros [pre [post H]]. destruct pre; [now exists post | discriminate H].
  - cbn [contains]. rewrite orb_true_iff, startswith_iff, IH. split.
    + intros [[post H] | [pre [post H]]].
      * now exists "", post.
      * exists (String b pre), post. simpl. now rewrite H.
    + intros [pre [post H]]. destruct pre as [| x pre].
      * left. now exists post.
      * right. inversion H. now exists pre, post.
Qed.

Lemma all_append (p : ascii -> bool) (a b : string) :
  all p (a ++ b) = all p a && all p b.
Proof.
  induction a as [| x a IH]; simpl; [reflexivity|].
  now rewrite IH, andb_assoc.
Qed.

(** Two runs of characters of a class that are both followed by a character
    outside the class, at the same place of a text, are the same run. *)
Lemma run_unique (p : ascii -> bool) (a a' : string) (x x' : ascii)
    (t t' : string) :
  all p a = true -> all p a' = true -> p x = false -> p x' = false ->
  a ++ String x t = a' ++ String x' t' -> a = a'.
Proof.
  revert a'. induction a as [| c a IH]; intros [| c' a']; simpl;
    intros Ha Ha' Hx Hx' E.
  - reflexivity.
  - inversion E; subst. apply andb_true_iff in Ha'. destruct Ha'. congruence.
  - inversion E; subst. apply andb_true_iff in Ha. destruct Ha. congruence.
  - inversion E; subst.
    apply andb_true_iff in Ha. apply andb_true_iff in Ha'.
    f_equal. now apply (IH a').
Qed.

(** [lstrip] removes the longest whitespace prefix, [rstrip] the longest
    whitespace suffix. *)
Lemma lstrip_spec (s : string) :
  exists l, s = l ++ lstrip s /\ all is_space l = true /\
            forall c t, lstrip s = String c t -> is_space c = false.
Proof.
  induction s as [| x s [l [Hs [Hl Hc]]]]; simpl.
  - exists "". repeat split. discriminate.
  - destruct (is_space x) eqn:X.
    + exists (String x l). simpl. rewrite X, Hl, <- Hs. now repeat split.
    + exists "". repeat split. intros c t E. now inversion E; subst.
Qed.

Lemma rstrip_spec (s : string) :
  exists r, s = rstrip s ++ r /\ all is_space r = true /\
            forall t c, rstrip s = t ++ String c "" -> is_space c = false.
Proof.
  induction s as [| x s [r [Hs [Hr Hc]]]]; simpl.
  - exists "". repeat split. intros [| ? ?] c E; discriminate E.
  - destruct (rstrip s) as [| y u] eqn:R.
    + simpl in Hs. subst r. destruct (is_space x) eqn:X.
      * exists (String x s). simpl. rewrite X, Hr. now repeat split.
      * exists s. repeat split; [assumption|].
        intros [| ? [| ? ?]] c E; inversion E; now subst.
    + exists r. split; [simpl; now rewrite Hs|]. split; [assumption|].
      intros [| z t] c E; [discriminate E|].
      inversion E; subst. now apply (Hc t c).
Qed.

Lemma strip_spec (s : string) :
  exists l r, s = l ++ strip s ++ r /\
              all is_space l = true /\ all is_space r = true /\
              (forall c t, strip s = String c t -> is_space c = false) /\
              (forall t c, strip s = t ++ String c "" -> is_space c = false).
Proof.
  unfold strip.
  destruct (lstrip_spec s) as [l [Hs [Hl Hc]]].
  destruct (rstrip_spec (lstrip s)) as [r [Hs' [Hr Hc']]].
  exists l, r. split; [now rewrite <- Hs'|].
  repeat split; try assumption.
  intros c t E. rewrite E in Hs'. simpl in Hs'. now apply (Hc c (t ++ r)).
Qed.

End StringFacts.

(** ** The matcher is sound and complete for [matches] *)

Section Matcher.

Local Open Scope string_scope.

Lemma in_one_char (p : ascii -> bool) (s : string) (cs : Re.captures)
    (c s' : string) (cs' : Re.captures) :
  In (c, s', cs') (Re.one_char p s cs) <->
  exists d, p d = true /\ c = String d "" /\ s = String d s' /\ cs' = cs.
Proof.
  unfold Re.one_char. destruct s as [| d s0].
  - split; [contradiction | intros [d [_ [_ [H _]]]]; discriminate H].
  - destruct (p d) eqn:E; simpl.
    + split.
      * intros [H | []]. inversion H; subst. now exists d.
      * intros [d' [Hp [Hc [Hs Hcs]]]]. inversion Hs; subst. now left.
    + split; [contradiction|].
      intros [d' [Hp [Hc [Hs Hcs]]]]. inversion Hs; subst. congruence.
Qed.

Lemma in_and_then (ws : list Re.way) (k : string -> Re.captures -> list Re.way)
    (c s' : string) (cs' : Re.captures) :
  In (c, s', cs') (Re.and_then ws k) <->
  exists c1 s1 cs1 c2,
    In (c1, s1, cs1) ws /\ In (c2, s', cs') (k s1 cs1) /\ c = c1 ++ c2.
Proof.
  unfold Re.and_then. rewrite in_flat_map. split.
  - intros [[[c1 s1] cs1] [Hw Hin]]. apply in_map_iff in Hin.
    destruct Hin as [[[c2 s2] cs2] [E Hin]]. simpl in E. inversion E; subst.
    now exists c1, s1, cs1, c2.
  - intros [c1 [s1 [cs1 [c2 [Hw [Hin E]]]]]]. subst c.
    exists (c1, s1, cs1). split; [assumption|].
    apply in_map_iff. now exists (c2, s', cs').
Qed.

Lemma in_nonempty (ws : list Re.way) (c s' : string) (cs' : Re.captures) :
  In (c, s', cs') (filter Re.nonempty ws) <-> In (c, s', cs') ws /\ c <> "".
Proof.
  rewrite filter_In. simpl. rewrite negb_true_iff. split.
  - intros [H E]. split; [assumption|]. intros ->. discriminate E.
  - intros [H N]. split; [assumption|].
    destruct (String.eqb_spec c ""); [contradiction | reflexivity].
Qed.

Section StarLoop.

Variable m : string -> Re.captures -> list Re.way.
Variable r : Re.regex.

Hypothesis m_sound : forall s cs c s' cs',
    In (c, s', cs') (m s cs) -> s = c ++ s' /\ matches r c cs cs'.

Lemma star_loop_sound (fuel : nat) : forall s cs c s' cs',
    In (c, s', cs') (Re.star_loop m fuel s cs) ->
    s = c ++ s' /\ matches (Re.Star r) c cs cs'.
Proof.
  induction fuel as [| fuel IH]; intros s cs c s' cs' Hin; simpl in Hin.
  - destruct Hin as [E | []]. inversion E; subst. split; [reflexivity | constructor].
  - apply in_app_or in Hin. destruct Hin as [Hin | [E | []]].
    + apply in_and_then in Hin.
      destruct Hin as [c1 [s1 [cs1 [c2 [H1 [H2 E]]]]]]. subst c.
      apply in_nonempty in H1. destruct H1 as [H1 N].
      apply m_sound in H1. destruct H1 as [-> M1].
      apply IH in H2. destruct H2 as [-> M2].
      split; [now rewrite append_assoc | now apply MStarStep with cs1].
    + inversion E; subst. split; [reflexivity | constructor].
Qed.

Lemma star_loop_more_fuel (fuel : nat) : forall s cs w,
    In w (Re.star_loop m fuel s cs) -> In w (Re.star_loop m (S fuel) s cs).
Proof.
  induction fuel as [| fuel IH]; intros s cs [[c s'] cs'] Hin.
  - simpl in Hin. destruct Hin as [E | []]. rewrite <- E.
    cbn [Re.star_loop]. apply in_or_app. right. now left.
  - cbn [Re.star_loop] in Hin. apply in_app_or in Hin.
    change (Re.star_loop m (S (S fuel)) s cs)
      with (Re.and_then (filter Re.nonempty (m s cs)) (Re.star_loop m (S fuel))
              ++ [("", s, cs)])%list.
    apply in_or_app. destruct Hin as [Hin | Hin]; [left | now right].
    apply in_and_then in Hin. apply in_and_then.
    destruct Hin as [c1 [s1 [cs1 [c2 [H1 [H2 E]]]]]].
    exists c1, s1, cs1, c2. split; [assumption|]. split; [|assumption].
    now apply IH.
Qed.

Lemma star_loop_enough_fuel (fuel fuel' : nat) (s : string)
    (cs : Re.captures) (w : Re.way) :
  (fuel <= fuel')%nat ->
  In w (Re.star_loop m fuel s cs) -> In w (Re.star_loop m fuel' s cs).
Proof.
  induction 1 as [| fuel' _ IH]; intros Hin; [assumption|].
  now apply star_loop_more_fuel, IH.
Qed.

End StarLoop.

Theorem rmatch_sound (r : Re.regex) : forall s cs c s' cs',
    In (c, s', cs') (Re.rmatch r s cs) -> s = c ++ s' /\ matches r c cs cs'.
Proof.
  induction r as [| a | p | r1 IH1 r2 IH2 | r1 IH1 r2 IH2 | r IH | n r IH];
    intros s cs c s' cs' Hin; cbn [Re.rmatch] in Hin.
  - destruct Hin as [E | []]. inversion E; subst. split; [reflexivity | constructor].
  - apply in_one_char in Hin. destruct Hin as [d [Hp [-> [-> ->]]]].
    apply Ascii.eqb_eq in Hp. subst d. split; [reflexivity | constructor].
  - apply in_one_char in Hin. destruct Hin as [d [Hp [-> [-> ->]]]].
    split; [reflexivity | now constructor].
  - apply in_and_then in Hin.
    destruct Hin as [c1 [s1 [cs1 [c2 [H1 [H2 ->]]]]]].
    apply IH1 in H1. destruct H1 as [-> M1].
    apply IH2 in H2. destruct H2 as [-> M2].
    split; [now rewrite append_assoc | now apply MCat with cs1].
  - apply in_app_or in Hin. destruct Hin as [Hin | Hin].
    + apply IH1 in Hin. destruct Hin. split; [assumption | now apply MAltL].
    + apply IH2 in Hin. destruct Hin. split; [assumption | now apply MAltR].
  - now apply (@star_loop_sound _ _ IH) in Hin.
  - apply in_map_iff in Hin. destruct Hin as [[[c0 s0] cs0] [E Hin]].
    simpl in E. inversion E; subst.
    apply IH in Hin. destruct Hin. split; [assumption | now constructor].
Qed.

Theorem rmatch_complete (r : Re.regex) (c : string) (cs cs' : Re.captures) :
  matches r c cs cs' ->
  forall s', In (c, s', cs') (Re.rmatch r (c ++ s') cs).
Proof.
  induction 1 as [cs | a cs | p a cs Hp
                 | r1 r2 c1 c2 cs cs1 cs2 _ IH1 _ IH2
                 | r1 r2 c cs cs' _ IH | r1 r2 c cs cs' _ IH
                 | r cs | r c1 c2 cs cs1 cs2 _ IH1 N _ IH2
                 | n r c cs cs' _ IH];
    intros s'; cbn [Re.rmatch].
  - now left.
  - apply in_one_char. exists a. now rewrite Ascii.eqb_refl.
  - apply in_one_char. now exists a.
  - apply in_and_then. exists c1, (c2 ++ s'), cs1, c2.
    rewrite append_assoc. auto.
  - apply in_or_app. left. apply IH.
  - apply in_or_app. right. apply IH.
  - simpl. destruct (String.length s'); simpl; [now left|].
    apply in_or_app. right. now left.
  - rewrite append_assoc.
    destruct c1 as [| x c1]; [contradiction|].
    cbn [append String.length Re.star_loop].
    apply in_or_app. left. apply in_and_then.
    exists (String x c1), (c2 ++ s'), cs1, c2.
    split; [| split; [| reflexivity]].
    + apply in_nonempty. split; [apply (IH1 (c2 ++ s')) | discriminate].
    + specialize (IH2 s'). cbn [Re.rmatch] in IH2.
      apply star_loop_enough_fuel with (fuel := String.length (c2 ++ s'));
        [| assumption].
      rewrite !length_append. lia.
  - apply in_map_iff. exists (c, s', cs'). split; [reflexivity | apply IH].
Qed.

End Matcher.

(** ** Searching *)

Section Search.

Local Open Scope string_scope.

Variable r : Re.regex.

Lemma match_here_none (s : string) :
  Re.match_here r s = None <->
  forall c post cs', s = c ++ post -> ~ matches r c [] cs'.
Proof.
  unfold Re.match_here. split.
  - intros H c post cs' -> M.
    apply rmatch_complete with (s' := post) in M.
    destruct (Re.rmatch r (c ++ post) []) as [| [[c0 s0] cs0] l];
      [contradiction | discriminate].
  - intros H.
    destruct (Re.rmatch r s []) as [| [[c0 s0] cs0] l] eqn:E; [reflexivity|].
    exfalso.
    assert (Hin : In (c0, s0, cs0) (Re.rmatch r s [])) by (rewrite E; now left).
    apply rmatch_sound in Hin. destruct Hin as [Hs M].
    exact (H c0 s0 cs0 Hs M).
Qed.

Lemma match_here_some (s : string) (m : Re.Match) :
  Re.match_here r s = Some m ->
  exists post, s = Re.whole m ++ post /\ matches r (Re.whole m) [] (Re.groups m).
Proof.
  unfold Re.match_here.
  destruct (Re.rmatch r s []) as [| [[c0 s0] cs0] l] eqn:E; [discriminate|].
  intros H. inversion H; subst. simpl.
  assert (Hin : In (c0, s0, cs0) (Re.rmatch r s [])) by (rewrite E; now left).
  apply rmatch_sound in Hin. now exists s0.
Qed.

(** [search] finds nothing exactly when the pattern matches nowhere. *)
Theorem search_none (s : string) :
  Re.search r s = None <->
  forall pre c post cs', s = pre ++ c ++ post -> ~ matches r c [] cs'.
Proof.
  induction s as [| x s IH]; cbn [Re.search].
  - destruct (Re.match_here r "") as [m |] eqn:E.
    + split; [discriminate|]. intros H. exfalso.
      apply match_here_some in E. destruct E as [post [Hs M]].
      exact (H "" _ post _ Hs M).
    + split; [| reflexivity]. intros _ pre c post cs' Hs.
      destruct pre; [| discriminate Hs].
      rewrite match_here_none in E. now apply (E c post).
  - destruct (Re.match_here r (String x s)) as [m |] eqn:E.
    + split; [discriminate|]. intros H. exfalso.
      apply match_here_some in E. destruct E as [post [Hs M]].
      exact (H "" _ post _ Hs M).
    + rewrite match_here_none in E. rewrite IH. split.
      * intros H [| y pre] c post cs' Hs.
        -- now apply (E c post).
        -- inversion Hs. now apply (H pre c post).
      * intros H pre c post cs' Hs. apply (H (String x pre) c post).
        simpl. now rewrite Hs.
Qed.

(** What [search] finds is a match at the leftmost position where the
    pattern matches. *)
Theorem search_some (s : string) (m : Re.Match) :
  Re.search r s = Some m ->
  exists pre post,
    s = pre ++ Re.whole m ++ post /\
    matches r (Re.whole m) [] (Re.groups m) /\
    forall pre' c' post' cs', s = pre' ++ c' ++ post' -> matches r c' [] cs' ->
                              (String.length pre <= String.length pre')%nat.
Proof.
  induction s as [| x s IH]; cbn [Re.search].
  - destruct (Re.match_here r "") as [m0 |] eqn:E; [| discriminate].
    intros H. inversion H; subst m0.
    apply match_here_some in E. destruct E as [post [Hs M]].
    exists "", post. split; [assumption|]. split; [assumption|].
    intros; simpl; lia.
  - destruct (Re.match_here r (String x s)) as [m0 |] eqn:E.
    + intros H. inversion H; subst m0.
      apply match_here_some in E. destruct E as [post [Hs M]].
      exists "", post. split; [assumption|]. split; [assumption|].
      intros; simpl; lia.
    + intros H. apply IH in H. destruct H as [pre [post [Hs [M Hleft]]]].
      exists (String x pre), post. split; [simpl; now rewrite Hs|].
      split; [assumption|].
      intros [| y pre'] c' post' cs' Hs' M'.
      * exfalso. rewrite match_here_none in E. exact (E c' post' cs' Hs' M').
      * inversion Hs'. simpl. apply le_n_S. now apply (Hleft pre' c' post' cs').
Qed.

End Search.

(** ** The duration pattern *)

Section DurationPattern.

Local Open Scope string_scope.

Lemma space_not_digit (c : ascii) : is_space c = true -> is_digit c = false.
Proof.
  destruct c as [[] [] [] [] [] [] [] []]; vm_compute; congruence.
Qed.

Lemma matches_class_star (p : ascii -> bool) (c : string)
    (cs cs' : Re.captures) :
  matches (Re.Star (Re.Class p)) c cs cs' -> all p c = true /\ cs' = cs.
Proof.
  remember (Re.Star (Re.Class p)) as r eqn:Er. intros M.
  induction M as [| | | | | | r0 cs | r0 c1 c2 cs cs1 cs2 M1 _ N M2 IH2 |];
    try discriminate Er.
  - now split.
  - inversion Er; subst r0. inversion M1; subst.
    destruct (IH2 eq_refl) as [Hall ->]. simpl.
    split; [| reflexivity]. apply andb_true_iff. now split.
Qed.

Lemma class_star_matches (p : ascii -> bool) (c : string) (cs : Re.captures) :
  all p c = true -> matches (Re.Star (Re.Class p)) c cs cs.
Proof.
  induction c as [| x c IH]; simpl; intros H; [constructor|].
  apply andb_true_iff in H. destruct H as [Hx Hc].
  change (String x c) with (String x "" ++ c).
  apply MStarStep with cs; [now constructor | discriminate | now apply IH].
Qed.

Lemma matches_lit (w c : string) (cs cs' : Re.captures) :
  matches (Re.Lit w) c cs cs' -> c = w /\ cs' = cs.
Proof.
  revert c cs cs'. induction w as [| x w IH]; intros c cs cs' M; simpl in M.
  - inversion M; subst. now split.
  - inversion M as [| | | r1 r2 c1 c2 cs0 cs1 cs2 M1 M2 | | | | |]; subst.
    inversion M1; subst. apply IH in M2. destruct M2 as [-> ->]. now split.
Qed.

Lemma lit_matches (w : string) (cs : Re.captures) : matches (Re.Lit w) w cs cs.
Proof.
  induction w as [| x w IH]; simpl; [constructor|].
  change (String x w) with (String x "" ++ w).
  apply MCat with cs; [constructor | assumption].
Qed.

Lemma matches_cat_inv (r1 r2 : Re.regex) (c : string) (cs cs' : Re.captures) :
  matches (Re.Cat r1 r2) c cs cs' ->
  exists c1 c2 cs1,
    c = c1 ++ c2 /\ matches r1 c1 cs cs1 /\ matches r2 c2 cs1 cs'.
Proof. inversion 1; subst. now exists c1, c2, cs1. Qed.

Lemma matches_alt_inv (r1 r2 : Re.regex) (c : string) (cs cs' : Re.captures) :
  matches (Re.Alt r1 r2) c cs cs' -> matches r1 c cs cs' \/ matches r2 c cs cs'.
Proof. inversion 1; subst; [now left | now right]. Qed.

Lemma matches_group_inv (n : nat) (r : Re.regex) (c : string)
    (cs cs' : Re.captures) :
  matches (Re.Group n r) c cs cs' ->
  exists cs1, cs' = (n, c) :: cs1 /\ matches r c cs cs1.
Proof. inversion 1; subst. now eexists. Qed.

Lemma matches_class_inv (p : ascii -> bool) (c : string) (cs cs' : Re.captures) :
  matches (Re.Class p) c cs cs' ->
  exists a, c = String a "" /\ p a = true /\ cs' = cs.
Proof. inversion 1; subst. now eexists. Qed.

(** Every match of the duration pattern is a digit run, whitespace and a
    word that starts with "min"; group 1 is the digit run. *)
Lemma matches_duration_re (c : string) (cs' : Re.captures) :
  matches duration_re c [] cs' ->
  exists ds ws tail,
    c = ds ++ ws ++ "min" ++ tail /\ ds <> "" /\
    all is_digit ds = true /\ all is_space ws = true /\
    Re.lookup 1 cs' = Some ds.
Proof.
  unfold duration_re, Re.Plus, Re.Opt. intros M.
  apply matches_cat_inv in M. destruct M as [ds [c23 [cs1 [-> [M1 M23]]]]].
  apply matches_group_inv in M1. destruct M1 as [cs0 [-> Mds]].
  apply matches_cat_inv in Mds. destruct Mds as [d1 [d2 [cs2 [-> [Md1 Md2]]]]].
  apply matches_class_inv in Md1. destruct Md1 as [a [-> [Ha ->]]].
  apply matches_class_star in Md2. destruct Md2 as [Hd2 ->].
  apply matches_cat_inv in M23. destruct M23 as [ws [tok [cs3 [-> [Mws M3]]]]].
  apply matches_class_star in Mws. destruct Mws as [Hws ->].
  apply matches_group_inv in M3. destruct M3 as [cs4 [-> Mtok]].
  assert (Htok : (exists tail, tok = "min" ++ tail) /\
                 cs4 = [(1%nat, String a "" ++ d2)]).
  { apply matches_alt_inv in Mtok. destruct Mtok as [Ml | Mr].
    - apply matches_lit in Ml. destruct Ml as [-> ->].
      split; [now exists "" | reflexivity].
    - apply matches_cat_inv in Mr. destruct Mr as [w [t [cs5 [-> [Mm Ms]]]]].
      apply matches_lit in Mm. destruct Mm as [-> ->].
      split; [exists ("ute" ++ t); reflexivity|].
      apply matches_alt_inv in Ms.
      destruct Ms as [Ms | Ms]; inversion Ms; reflexivity. }
  destruct Htok as [[tail ->] ->].
  exists (String a "" ++ d2), ws, tail.
  split; [reflexivity|]. split; [discriminate|].
  split; [simpl; apply andb_true_iff; now split|].
  split; [assumption | reflexivity].
Qed.

Lemma duration_re_matches (ds ws : string) :
  ds <> "" -> all is_digit ds = true -> all is_space ws = true ->
  exists cs', matches duration_re (ds ++ ws ++ "min") [] cs'.
Proof.
  intros N Hds Hws. destruct ds as [| d ds]; [contradiction|].
  simpl in Hds. apply andb_true_iff in Hds. destruct Hds as [Hd Hds].
  eexists. unfold duration_re.
  eapply MCat.
  - apply MGroup. unfold Re.Plus.
    change (String d ds) with (String d "" ++ ds).
    eapply MCat; [now constructor | now apply class_star_matches].
  - eapply MCat; [now apply class_star_matches|].
    apply MGroup. apply MAltL. apply lit_matches.
Qed.

Lemma has_duration_iff (s : string) :
  has_duration s <->
  exists pre c post cs', s = pre ++ c ++ post /\ matches duration_re c [] cs'.
Proof.
  split.
  - intros [pre [ds [ws [post [Hs [N [Hds Hws]]]]]]].
    destruct (duration_re_matches ws N Hds Hws) as [cs' M].
    exists pre, (ds ++ ws ++ "min"), post, cs'. split; [| assumption].
    now rewrite !append_assoc.
  - intros [pre [c [post [cs' [Hs M]]]]].
    apply matches_duration_re in M.
    destruct M as [ds [ws [tail [-> [N [Hds [Hws _]]]]]]].
    exists pre, ds, ws, (tail ++ post).
    split; [| tauto]. rewrite Hs. now rewrite !append_assoc.
Qed.

Theorem search_duration_none (s : string) :
  Re.search duration_re s = None <-> ~ has_duration s.
Proof.
  rewrite search_none, has_duration_iff. split.
  - intros H [pre [c [post [cs' [Hs M]]]]]. exact (H pre c post cs' Hs M).
  - intros H pre c post cs' Hs M. apply H. now exists pre, c, post, cs'.
Qed.

Theorem search_duration_first (s : string) (m : Re.Match) :
  Re.search duration_re s = Some m ->
  exists ds, Re.group m 1 = Some ds /\ first_duration s ds.
Proof.
  intros H. apply search_some in H.
  destruct H as [pre [post [Hs [M Hleft]]]].
  apply matches_duration_re in M.
  destruct M as [ds [ws [tail [Hw [N [Hds [Hws Hg]]]]]]].
  exists ds. split; [exact Hg|].
  exists pre. split.
  - exists ws, (tail ++ post). split; [| tauto].
    rewrite Hs, Hw. now rewrite !append_assoc.
  - intros pre' ds' [ws' [post' [Hs' [N' [Hds' Hws']]]]].
    destruct (duration_re_matches ws' N' Hds' Hws') as [cs' M'].
    apply (Hleft pre' (ds' ++ ws' ++ "min") post' cs'); [| assumption].
    rewrite Hs'. now rewrite !append_assoc.
Qed.

Lemma append_same_length (a b a' b' : string) :
  a ++ b = a' ++ b' -> String.length a = String.length a' -> a = a' /\ b = b'.
Proof.
  revert a'. induction a as [| x a IH]; intros [| x' a']; simpl; intros E L;
    try discriminate L.
  - now split.
  - inversion E; subst. injection L as L.
    destruct (IH a' H1 L) as [-> ->]. now split.
Qed.

(** The digit run of a duration phrase is fixed by where the phrase starts. *)
Lemma duration_at_unique (s pre ds ds' : string) :
  duration_at s pre ds -> duration_at s pre ds' -> ds = ds'.
Proof.
  intros [ws [post [Hs [_ [Hds Hws]]]]] [ws' [post' [Hs' [_ [Hds' Hws']]]]].
  rewrite Hs in Hs'. apply append_cancel_l in Hs'.
  assert (Hnext : forall w p, all is_space w = true ->
            exists x t, w ++ "min" ++ p = String x t /\ is_digit x = false).
  { intros [| x w] p Hw.
    - now exists "m"%char, ("in" ++ p).
    - simpl in Hw. apply andb_true_iff in Hw. destruct Hw as [Hx _].
      exists x, (w ++ "min" ++ p). split; [reflexivity|].
      now apply space_not_digit. }
  destruct (Hnext ws post Hws) as [x [t [E Hx]]].
  destruct (Hnext ws' post' Hws') as [x' [t' [E' Hx']]].
  rewrite E, E' in Hs'.
  exact (@run_unique is_digit ds ds' x x' t t' Hds Hds' Hx Hx' Hs').
Qed.

Theorem first_duration_unique (s ds ds' : string) :
  first_duration s ds -> first_duration s ds' -> ds = ds'.
Proof.
  intros [pre [Hat Hleft]] [pre' [Hat' Hleft']].
  pose proof (Hleft _ _ Hat') as L1. pose proof (Hleft' _ _ Hat) as L2.
  assert (L : String.length pre = String.length pre') by lia.
  assert (E : pre = pre').
  { destruct Hat as [ws [post [Hs _]]]. destruct Hat' as [ws' [post' [Hs' _]]].
    rewrite Hs in Hs'. now destruct (append_same_length _ _ _ _ Hs' L). }
  subst pre'. exact (duration_at_unique Hat Hat').
Qed.

Lemma int_digits (ds : string) :
  ds <> "" -> all is_digit ds = true -> int ds = Ok (decimal ds).
Proof.
  intros N H. unfold int. destruct ds; [contradiction|]. now rewrite H.
Qed.

End DurationPattern.

(** ** Scanning the catalog keys *)

Section KeyScan.

Local Open Scope string_scope.

Variable s : string.

Lemma find_first_key (keys : list string) (k : string) :
  find (fun k => contains k s) keys = Some k <-> first_key_in keys s k.
Proof.
  unfold first_key_in. induction keys as [| k0 keys IH]; simpl.
  - split; [discriminate|].
    intros [before [after [E _]]]. now destruct before.
  - destruct (contains k0 s) eqn:F.
    + split.
      * intros H. inversion H; subst k0.
        exists [], keys. split; [reflexivity|].
        split; [now apply contains_iff | contradiction].
      * intros [[| b before] [after [E [Hk Hb]]]]; simpl in E; inversion E; subst.
        -- reflexivity.
        -- exfalso. apply (Hb b); [now left | now apply contains_iff].
    + rewrite IH. split.
      * intros [before [after [E [Hk Hb]]]].
        exists (k0 :: before), after. split; [simpl; now rewrite E|].
        split; [assumption|].
        intros k' [<- | Hin]; [| now apply Hb].
        rewrite <- contains_iff. congruence.
      * intros [[| b before] [after [E [Hk Hb]]]]; simpl in E; inversion E; subst.
        -- exfalso. apply contains_iff in Hk. congruence.
        -- exists before, after. split; [reflexivity|].
           split; [assumption|]. intros k' Hin. apply Hb. now right.
Qed.

Lemma find_no_key (keys : list string) :
  find (fun k => contains k s) keys = None <-> no_key_in keys s.
Proof.
  unfold no_key_in. split.
  - intros H k Hin Hsub. apply contains_iff in Hsub.
    pose proof (find_none _ _ H k Hin) as F. simpl in F. congruence.
  - intros H. destruct (find (fun k => contains k s) keys) as [k |] eqn:F; [| reflexivity].
    exfalso. apply find_some in F. destruct F as [Hin Hk].
    apply (H k Hin). now apply contains_iff.
Qed.

End KeyScan.

(** ** The parser *)

Section Parser.

Local Open Scope string_scope.

Lemma first_activity_nonempty (text a : string) :
  first_activity text = Some a -> a <> "".
Proof.
  unfold first_activity. intros H. apply find_some in H. destruct H as [Hin _].
  simpl in Hin. intuition (subst; discriminate).
Qed.

Lemma errors_differ : MissingDurationError <> UnknownActivityError.
Proof. discriminate. Qed.

(** The two ways through [parse_input]. *)
Lemma parse_input_cases (text : string) :
  (~ has_duration (lower text) /\ parse_input text = Raise MissingDurationError) \/
  (exists ds,
      first_duration (lower text) ds /\
      parse_input text =
      match first_activity text with
      | Some activity => Ok (activity, decimal ds)
      | None => Raise UnknownActivityError
      end).
Proof.
  unfold parse_input.
  destruct (Re.search duration_re (lower text)) as [m |] eqn:E.
  - right. apply search_duration_first in E. destruct E as [ds [Hg Hfirst]].
    exists ds. split; [assumption|].
    unfold int_group. rewrite Hg.
    destruct Hfirst as [pre [[ws [post [_ [N [Hds _]]]]] _]].
    rewrite (int_digits N Hds). simpl bind.
    destruct (first_activity text) as [a |] eqn:A; [| reflexivity].
    apply first_activity_nonempty in A. destruct a; [contradiction | reflexivity].
  - left. split; [now apply search_duration_none | reflexivity].
Qed.

Lemma first_duration_exists (s : string) :
  has_duration s -> exists ds, first_duration s ds.
Proof.
  intros H. destruct (Re.search duration_re s) as [m |] eqn:E.
  - apply search_duration_first in E. destruct E as [ds [_ Hf]]. now exists ds.
  - apply search_duration_none in E. contradiction.
Qed.

Lemma first_duration_has (s ds : string) : first_duration s ds -> has_duration s.
Proof. intros [pre [H _]]. now exists pre, ds. Qed.

(** How a concrete text is shown to have a given leftmost duration. *)
Lemma first_duration_by_search (s ds : string) (m : Re.Match) :
  Re.search duration_re s = Some m -> Re.group m 1 = Some ds ->
  first_duration s ds.
Proof.
  intros E Hg. apply search_duration_first in E.
  destruct E as [ds' [Hg' Hf]]. congruence.
Qed.

Lemma parse_input_with_duration (text ds : string) :
  first_duration (lower text) ds ->
  parse_input text =
  match first_activity text with
  | Some activity => Ok (activity, decimal ds)
  | None => Raise UnknownActivityError
  end.
Proof.
  intros Hf. destruct (parse_input_cases text) as [[Hno _] | [ds' [Hf' E]]].
  - exfalso. apply Hno. now apply first_duration_has with ds.
  - now rewrite (first_duration_unique Hf Hf').
Qed.

End Parser.

(** ** Claims on the parser *)

Section ParserClaims.

Local Open Scope string_scope.

(** C2, as stated, fails: whitespace between the digits and "min" is not
    required.  The text "30min of running" holds no digits followed by
    whitespace and "min" or "minutes", yet [parse_input] does not raise
    [MissingDurationError]: it returns 30 minutes of running. *)
Lemma parse_input_unspaced_duration :
  Re.search spec_duration_re (lower "30min of running") = None /\
  parse_input "30min of running" = Ok ("running", 30%Z) /\
  parse_input "30min of running" <> Raise MissingDurationError.
Proof.
  split; [vm_compute; reflexivity|].
  split; [vm_compute; reflexivity | discriminate].
Qed.

(** C2, amended: [parse_input] fails with [MissingDurationError] exactly when
    the lowercased text contains no run of one or more digits followed by
    zero or more whitespace characters and the letters "min"; when there is
    such an occurrence, the leftmost one fixes the duration, which is the
    integer its digits denote. *)
Theorem parse_input_duration (text : string) :
  (parse_input text = Raise MissingDurationError <->
   ~ has_duration (lower text)) /\
  (has_duration (lower text) -> exists ds, first_duration (lower text) ds) /\
  (forall ds, first_duration (lower text) ds ->
     parse_input text = Raise UnknownActivityError \/
     exists activity, parse_input text = Ok (activity, decimal ds)).
Proof.
  split; [| split].
  - split.
    + intros H Hd. apply first_duration_exists in Hd. destruct Hd as [ds Hf].
      rewrite (parse_input_with_duration _ Hf) in H.
      destruct (first_activity text); [discriminate H|].
      now apply errors_differ.
    + intros H. destruct (parse_input_cases text) as [[_ E] | [ds [Hf _]]];
        [assumption|].
      exfalso. apply H. now apply first_duration_has with ds.
  - apply first_duration_exists.
  - intros ds Hf. rewrite (parse_input_with_duration _ Hf).
    destruct (first_activity text) as [a |]; [right; now exists a | now left].
Qed.

Lemma parse_input_duration_witness :
  parse_input "12 34  MINUTES of Hiking" = Raise UnknownActivityError \/
  exists activity,
    parse_input "12 34  MINUTES of Hiking" = Ok (activity, decimal "34").
Proof.
  apply (proj2 (proj2 (parse_input_duration "12 34  MINUTES of Hiking"))).
  eapply first_duration_by_search; vm_compute; reflexivity.
Defined.

(** C3: when the text holds a duration phrase, [parse_input] returns as
    activity the first catalog key, in insertion order, that occurs in the
    lowercased text, and it fails with [UnknownActivityError] exactly when no
    catalog key occurs in it. *)
Theorem parse_input_activity (text : string) :
  has_duration (lower text) ->
  (forall activity,
      (exists duration, parse_input text = Ok (activity, duration)) <->
      first_key_in (Dict.keys MET_VALUES) (lower text) activity) /\
  (parse_input text = Raise UnknownActivityError <->
   no_key_in (Dict.keys MET_VALUES) (lower text)) /\
  Dict.keys MET_VALUES =
  [ "walking"; "running"; "cycling"; "swimming"; "yoga"; "weights";
    "dancing"; "aerobics"; "hiking"; "jumping rope"; "rowing"; "riding";
    "skating"; "football"; "basketball" ].
Proof.
  intros Hd. apply first_duration_exists in Hd. destruct Hd as [ds Hf].
  rewrite (parse_input_with_duration _ Hf).
  split; [| split; [| reflexivity]].
  - intros activity. rewrite <- find_first_key.
    fold (first_activity text).
    destruct (first_activity text) as [a |]; split.
    + intros [d H]. now inversion H.
    + intros H. inversion H; subst. now eexists.
    + intros [d H]. discriminate H.
    + discriminate.
  - rewrite <- find_no_key. fold (first_activity text).
    destruct (first_activity text) as [a |]; split; try discriminate; reflexivity.
Qed.

Lemma parse_input_activity_witness :
  (exists duration,
      parse_input "20 min of running after walking" = Ok ("walking", duration)) /\
  parse_input "45 min of something unknown" = Raise UnknownActivityError.
Proof.
  split.
  - assert (Hd : has_duration (lower "20 min of running after walking")).
    { apply first_duration_has with "20".
      eapply first_duration_by_search; vm_compute; reflexivity. }
    apply (proj1 (parse_input_activity _ Hd)).
    apply find_first_key. vm_compute. reflexivity.
  - assert (Hd : has_duration (lower "45 min of something unknown")).
    { apply first_duration_has with "45".
      eapply first_duration_by_search; vm_compute; reflexivity. }
    apply (proj1 (proj2 (parse_input_activity _ Hd))).
    apply find_no_key. vm_compute. reflexivity.
Defined.

(** C8: a text with neither a duration phrase nor a catalog key fails with
    [MissingDurationError], not with [UnknownActivityError]: the duration is
    checked first. *)
Theorem parse_input_duration_checked_first (text : string) :
  ~ has_duration (lower text) ->
  no_key_in (Dict.keys MET_VALUES) (lower text) ->
  parse_input text = Raise MissingDurationError /\
  parse_input text <> Raise UnknownActivityError.
Proof.
  intros Hno _. destruct (parse_input_cases text) as [[_ E] | [ds [Hf _]]].
  - rewrite E. split; [reflexivity|]. intros H. now inversion H.
  - exfalso. apply Hno. now apply first_duration_has with ds.
Qed.

Lemma parse_input_duration_checked_first_witness :
  parse_input "workout" = Raise MissingDurationError /\
  parse_input "workout" <> Raise UnknownActivityError.
Proof.
  apply parse_input_duration_checked_first.
  - apply search_duration_none. vm_compute. reflexivity.
  - apply find_no_key. vm_compute. reflexivity.
Defined.

(** C9: a duration of zero is accepted.  When the leftmost duration phrase
    has digit run "0" and a catalog key occurs in the text, [parse_input]
    succeeds with duration 0. *)
Theorem parse_input_zero_duration :
  (forall text,
      first_duration (lower text) "0" ->
      (exists k, In k (Dict.keys MET_VALUES) /\ substring k (lower text)) ->
      exists activity, parse_input text = Ok (activity, 0%Z)) /\
  parse_input "I did 0 minutes of running" = Ok ("running", 0%Z).
Proof.
  split; [| vm_compute; reflexivity].
  intros text Hf [k [Hin Hk]].
  rewrite (parse_input_with_duration _ Hf).
  destruct (first_activity text) as [a |] eqn:A; [now exists a|].
  exfalso. unfold first_activity in A. apply find_no_key in A.
  exact (A k Hin Hk).
Qed.

Lemma parse_input_zero_duration_witness :
  exists activity, parse_input "0 min, then cycling" = Ok (activity, 0%Z).
Proof.
  apply (proj1 parse_input_zero_duration).
  - eapply first_duration_by_search; vm_compute; reflexivity.
  - exists "cycling". split; [simpl; tauto|].
    apply contains_iff. vm_compute. reflexivity.
Defined.

(** A no-break space (U+00A0) between the digits and "min" is whitespace
    for the pattern, as it is for [\s]. *)
Lemma parse_input_no_break_space :
  parse_input ("30" ++ String (ascii_of_nat 160) "min of running") =
  Ok ("running", 30%Z) /\
  parse_input ("30" ++ String (ascii_of_nat 160) "min of nothing") =
  Raise UnknownActivityError /\
  parse_input ("7" ++ String (ascii_of_nat 160) "min, 0 min running") =
  Ok ("running", 7%Z).
Proof. repeat split; vm_compute; reflexivity. Qed.

End ParserClaims.

(** ** Claims on the health suggestions *)

Section Suggestions.

Local Open Scope string_scope.

Lemma suggestions_loop_first (kb before after : Dict.dict topic)
    (query key : string) (entry : topic) :
  kb = (before ++ (key, entry) :: after)%list ->
  substring key query ->
  no_key_in (Dict.keys before) query ->
  suggestions_loop kb query = Some (format_topic entry).
Proof.
  intros -> Hkey. induction before as [| [k e] before IH]; simpl; intros Hno.
  - apply contains_iff in Hkey. now rewrite Hkey.
  - destruct (contains k query) eqn:C.
    + exfalso. apply (Hno k); [now left | now apply contains_iff].
    + apply IH. intros k' Hin. apply Hno. now right.
Qed.

Lemma suggestions_loop_none (kb : Dict.dict topic) (query : string) :
  no_key_in (Dict.keys kb) query -> suggestions_loop kb query = None.
Proof.
  induction kb as [| [k e] kb IH]; simpl; intros Hno; [reflexivity|].
  destruct (contains k query) eqn:C.
  - exfalso. apply (Hno k); [now left | now apply contains_iff].
  - apply IH. intros k' Hin. apply Hno. now right.
Qed.

(** C6: [fetch_health_suggestions] lowercases and trims the query; for the
    first knowledge-base key, in insertion order, that occurs in it, the
    answer is the description of that key followed by one "- tip" line per
    tip, in their order; when no key occurs, it is the fixed message that
    names diabetes, headache and fatigue.  "I have a headache and fatigue"
    gets the headache entry. *)
Theorem fetch_health_suggestions_first_key :
  (forall query before key entry after,
      HEALTH_KNOWLEDGE_BASE = (before ++ (key, entry) :: after)%list ->
      substring key (strip (lower query)) ->
      no_key_in (Dict.keys before) (strip (lower query)) ->
      fetch_health_suggestions query =
      "**" ++ description entry ++ "**" ++ nl ++ nl ++ "**Tips:**" ++ nl ++
      join nl (map (fun tip => "- " ++ tip) (tips entry))) /\
  (forall query,
      no_key_in (Dict.keys HEALTH_KNOWLEDGE_BASE) (strip (lower query)) ->
      fetch_health_suggestions query = not_found_message) /\
  Dict.keys HEALTH_KNOWLEDGE_BASE =
  [ "diabetes"; "high blood pressure"; "obesity"; "headache"; "fatigue" ] /\
  (substring "diabetes" not_found_message /\
   substring "headache" not_found_message /\
   substring "fatigue" not_found_message) /\
  fetch_health_suggestions "I have a headache and fatigue" =
  "**Pain in the head region, often due to stress, dehydration, or sleep issues.**"
  ++ nl ++ nl ++ "**Tips:**" ++ nl ++
  "- Drink plenty of water." ++ nl ++
  "- Practice stress-relieving activities like meditation." ++ nl ++
  "- Avoid excessive screen time." ++ nl ++
  "- Get 7-8 hours of sleep.".
Proof.
  split; [| split; [| split; [reflexivity | split]]].
  - intros query before key entry after Hkb Hkey Hno.
    unfold fetch_health_suggestions.
    now rewrite (@suggestions_loop_first _ _ _ _ _ _ Hkb Hkey Hno).
  - intros query Hno. unfold fetch_health_suggestions.
    now rewrite (@suggestions_loop_none _ _ Hno).
  - repeat split; apply contains_iff; vm_compute; reflexivity.
  - vm_compute. reflexivity.
Qed.

Lemma fetch_health_suggestions_first_key_witness :
  fetch_health_suggestions "  Fatigue, then OBESITY " =
  "**A medical condition involving excess body fat.**"
  ++ nl ++ nl ++ "**Tips:**" ++ nl ++
  join nl [ "- Eat in a calorie deficit.";
            "- Avoid processed food and sugars.";
            "- Drink water before meals.";
            "- Walk at least 10,000 steps daily." ] /\
  fetch_health_suggestions "sore throat" = not_found_message.
Proof.
  destruct fetch_health_suggestions_first_key as [Hfirst [Hnone _]].
  split.
  - apply (Hfirst "  Fatigue, then OBESITY "
             (firstn 2 HEALTH_KNOWLEDGE_BASE) "obesity"
             {| description := "A medical condition involving excess body fat.";
                tips := [ "Eat in a calorie deficit.";
                          "Avoid processed food and sugars.";
                          "Drink water before meals.";
                          "Walk at least 10,000 steps daily." ] |}
             (skipn 3 HEALTH_KNOWLEDGE_BASE)).
    + reflexivity.
    + apply contains_iff. vm_compute. reflexivity.
    + apply find_no_key. vm_compute. reflexivity.
  - apply Hnone. apply find_no_key. vm_compute. reflexivity.
Defined.

End Suggestions.

(** * Further properties of the parser *)

Section ParserFacts.

Local Open Scope string_scope.

Lemma lower_char_idempotent (c : ascii) :
  lower_char (lower_char c) = lower_char c.
Proof.
  destruct c as [[] [] [] [] [] [] [] []]; vm_compute; reflexivity.
Qed.

Lemma lower_idempotent (s : string) : lower (lower s) = lower s.
Proof.
  induction s as [| c s IH]; simpl; [reflexivity|].
  now rewrite lower_char_idempotent, IH.
Qed.

Lemma digits_value_nonneg (s : string) (acc : Z) :
  (0 <= acc)%Z -> (0 <= digits_value acc s)%Z.
Proof.
  revert acc. induction s as [| c s IH]; cbn [digits_value]; intros acc H;
    [assumption|].
  apply IH. unfold digit_value. lia.
Qed.

Lemma MET_VALUES_keys_lowercase :
  Forall (fun k => lower k = k) (Dict.keys MET_VALUES).
Proof. repeat constructor. Qed.

Lemma key_has_value (V : Type) (d : Dict.dict V) (k : string) :
  In k (Dict.keys d) -> exists v, In (k, v) d.
Proof.
  unfold Dict.keys. intros H. apply in_map_iff in H.
  destruct H as [[k' v] [E Hin]]. simpl in E. subst k'. now exists v.
Qed.

(** What a successful parse went through. *)
Lemma parse_input_ok (text activity : string) (duration : Z) :
  parse_input text = Ok (activity, duration) ->
  exists ds,
    first_duration (lower text) ds /\ duration = decimal ds /\
    first_activity text = Some activity.
Proof.
  intros H. destruct (parse_input_cases text) as [[_ E] | [ds [Hf E]]].
  - rewrite E in H. discriminate H.
  - rewrite E in H. exists ds. split; [assumption|].
    destruct (first_activity text) as [a |]; [| discriminate H].
    inversion H; subst. now split.
Qed.

Lemma first_activity_key (text a : string) :
  first_activity text = Some a ->
  In a (Dict.keys MET_VALUES) /\ substring a (lower text).
Proof.
  unfold first_activity. intros H. apply find_some in H.
  destruct H as [Hin Hc]. split; [assumption | now apply contains_iff].
Qed.

(** X1: what [parse_input] returns is well formed: the activity is a key of
    the catalog, written in lower case, that occurs in the lowercased text,
    and the duration is not negative. *)
Theorem parse_input_well_formed (text activity : string) (duration : Z) :
  parse_input text = Ok (activity, duration) ->
  In activity (Dict.keys MET_VALUES) /\
  substring activity (lower text) /\
  lower activity = activity /\
  (0 <= duration)%Z.
Proof.
  intros H. apply parse_input_ok in H. destruct H as [ds [_ [-> A]]].
  apply first_activity_key in A. destruct A as [Hin Hsub].
  split; [assumption|]. split; [assumption|]. split.
  - pose proof MET_VALUES_keys_lowercase as L.
    rewrite Forall_forall in L. now apply L.
  - apply digits_value_nonneg. lia.
Qed.

Lemma parse_input_well_formed_witness :
  parse_input "-15 Minutes SWIMMING" = Ok ("swimming", 15%Z) /\
  In "swimming" (Dict.keys MET_VALUES) /\
  substring "swimming" (lower "-15 Minutes SWIMMING") /\
  lower "swimming" = "swimming" /\
  (0 <= 15)%Z.
Proof.
  split; [vm_compute; reflexivity|].
  apply (@parse_input_well_formed "-15 Minutes SWIMMING" "swimming" 15).
  vm_compute. reflexivity.
Defined.

(** X2: [parse_input] fails in two ways only, both of them [ValueError]s:
    the missing duration and the unknown activity. *)
Theorem parse_input_failures (text : string) (e : exn) :
  parse_input text = Raise e ->
  e = MissingDurationError \/ e = UnknownActivityError.
Proof.
  intros H. destruct (parse_input_cases text) as [[_ E] | [ds [_ E]]];
    rewrite E in H.
  - left. now inversion H.
  - destruct (first_activity text); [discriminate H|].
    right. now inversion H.
Qed.

Lemma parse_input_failures_witness :
  parse_input "half an hour of yoga" = Raise MissingDurationError /\
  (MissingDurationError = MissingDurationError \/
   MissingDurationError = UnknownActivityError).
Proof.
  split; [vm_compute; reflexivity|].
  apply (@parse_input_failures "half an hour of yoga"). vm_compute. reflexivity.
Defined.

(** X3: [parse_input] does not see the case of letters: lowercasing the
    text first changes nothing. *)
Theorem parse_input_case_insensitive (text : string) :
  parse_input (lower text) = parse_input text.
Proof.
  unfold parse_input, first_activity. now rewrite lower_idempotent.
Qed.

End ParserFacts.

(** * Further properties of the metrics *)

Section MetricsFacts.

Local Open Scope Q_scope.

(** Rounding to the nearest integer is off by a half at most. *)
Lemma round_half_even_error (x : Q) :
  x - (1 # 2) <= inject_Z (round_half_even x) /\
  inject_Z (round_half_even x) <= x + (1 # 2).
Proof.
  unfold round_half_even.
  pose proof (Qfloor_le x) as Lo. pose proof (Qlt_floor x) as Hi.
  rewrite inject_Z_plus in Hi. change (inject_Z 1) with 1 in Hi.
  destruct (Qcompare_spec (x - inject_Z (Qfloor x)) (1 # 2)) as [E | L | G].
  - destruct (Z.even (Qfloor x)).
    + split; lra.
    + rewrite inject_Z_plus. change (inject_Z 1) with 1. split; lra.
  - split; lra.
  - rewrite inject_Z_plus. change (inject_Z 1) with 1. split; lra.
Qed.



End MetricsFacts.

(** * Meal suggestions *)

Section Meals.

Local Open Scope string_scope.

(** X9: [give_food_recommendation] knows the goals "gain", "maintain" and
    "lose", written exactly so, and gives five foods for each; for any other
    goal it gives the empty list. *)
Theorem give_food_recommendation_goals (goal : string) :
  (goal = "gain" \/ goal = "maintain" \/ goal = "lose" ->
   List.length (give_food_recommendation goal) = 5%nat) /\
  (goal <> "gain" -> goal <> "maintain" -> goal <> "lose" ->
   give_food_recommendation goal = []).
Proof.
  split.
  - intros [-> | [-> | ->]]; reflexivity.
  - intros N1 N2 N3. unfold give_food_recommendation.
    apply get_absent. simpl. intuition congruence.
Qed.

Lemma give_food_recommendation_goals_witness :
  List.length (give_food_recommendation "lose") = 5%nat /\
  give_food_recommendation "LOSE" = [].
Proof.
  split.
  - apply (proj1 (give_food_recommendation_goals "lose")). tauto.
  - apply (proj2 (give_food_recommendation_goals "LOSE")); discriminate.
Defined.

(** X10: whatever the BMI, the goal [determine_goal] derives from it is one
    [give_food_recommendation] knows: the meal suggestions always hold five
    foods. *)
Theorem meals_for_every_bmi (bmi : Q) :
  List.length (give_food_recommendation (determine_goal bmi)) = 5%nat.
Proof.
  unfold determine_goal.
  destruct (ltb bmi 18.5); [reflexivity|].
  destruct (leb bmi 24.9); reflexivity.
Qed.

End Meals.

(** * Further properties of the health suggestions *)

Section Trimming.

Local Open Scope string_scope.

Lemma append_last_inj (a b : string) (x y : ascii) :
  a ++ String x "" = b ++ String y "" -> a = b /\ x = y.
Proof.
  revert b. induction a as [| c a IH]; intros [| d b]; simpl; intros E.
  - inversion E. now split.
  - inversion E as [[Ec Eb]]. destruct b; discriminate Eb.
  - inversion E as [[Ec Ea]]. destruct a; discriminate Ea.
  - inversion E as [[Ec Eab]]. destruct (IH b Eab) as [-> ->]. now split.
Qed.

Lemma last_split (s : string) :
  s <> "" -> exists t y, s = t ++ String y "".
Proof.
  induction s as [| c s IH]; intros N; [contradiction|].
  destruct s as [| d s].
  - now exists "", c.
  - destruct IH as [t [y E]]; [discriminate|].
    exists (String c t), y. simpl. now rewrite E.
Qed.

Lemma last_char_split (s : string) (c : ascii) :
  last_char s = Some c -> exists t, s = t ++ String c "".
Proof.
  induction s as [| d s IH]; simpl; [discriminate|].
  destruct s as [| e s].
  - intros H. inversion H. now exists "".
  - intros H. destruct (IH H) as [t E]. exists (String d t). simpl. now rewrite E.
Qed.

Lemma tight_ends (k : string) :
  tight k = true ->
  (exists c t, k = String c t /\ is_space c = false) /\
  (exists t c, k = t ++ String c "" /\ is_space c = false).
Proof.
  unfold tight. destruct k as [| c t]; [discriminate|].
  destruct (last_char (String c t)) as [c' |] eqn:L; [| discriminate].
  rewrite andb_true_iff, !negb_true_iff. intros [Hc Hc'].
  split; [now exists c, t|].
  apply last_char_split in L. destruct L as [t' E]. now exists t', c'.
Qed.

Variable key : string.
Hypothesis key_tight : tight key = true.

Lemma substring_drop_first (x : ascii) (m : string) :
  is_space x = true -> substring key (String x m) -> substring key m.
Proof.
  intros Hx [pre [post E]].
  destruct (tight_ends key key_tight) as [[c [t [Hk Hc]]] _].
  destruct pre as [| y pre]; simpl in E.
  - rewrite Hk in E. inversion E. congruence.
  - inversion E. now exists pre, post.
Qed.

Lemma substring_drop_last (x : ascii) (m : string) :
  is_space x = true -> substring key (m ++ String x "") -> substring key m.
Proof.
  intros Hx [pre [post E]].
  destruct (tight_ends key key_tight) as [_ [t [c [Hk Hc]]]].
  destruct (String.eqb_spec post "") as [-> | N].
  - exfalso. rewrite append_empty_r, Hk, <- append_assoc in E.
    apply append_last_inj in E. destruct E as [_ ->]. congruence.
  - apply last_split in N. destruct N as [post' [y ->]].
    rewrite <- !append_assoc in E. apply append_last_inj in E.
    destruct E as [-> _]. exists pre, post'. now rewrite append_assoc.
Qed.

Lemma substring_widen (l m r : string) :
  substring key m -> substring key (l ++ m ++ r).
Proof.
  intros [pre [post ->]]. exists (l ++ pre), (post ++ r).
  now rewrite !append_assoc.
Qed.

(** Whitespace around a text holds no occurrence of a tight word. *)
Lemma substring_trim (l m r : string) :
  all is_space l = true -> all is_space r = true ->
  (substring key (l ++ m ++ r) <-> substring key m).
Proof.
  intros Hl Hr. split; [| apply substring_widen].
  revert Hl. induction l as [| x l IHl]; simpl.
  - intros _. revert m. induction r as [| x r IHr]; intros m.
    + now rewrite append_empty_r.
    + simpl in Hr. apply andb_true_iff in Hr. destruct Hr as [Hx Hr].
      intros H. apply substring_drop_last with x; [assumption|].
      apply (IHr Hr). now rewrite append_assoc.
  - intros Hl. apply andb_true_iff in Hl. destruct Hl as [Hx Hl].
    intros H. apply IHl; [assumption|].
    now apply substring_drop_first with x.
Qed.

Lemma contains_trim (l m r : string) :
  all is_space l = true -> all is_space r = true ->
  contains key (l ++ m ++ r) = contains key m.
Proof.
  intros Hl Hr. apply eq_true_iff_eq.
  rewrite !contains_iff. now apply substring_trim.
Qed.

Lemma contains_strip (s : string) : contains key (strip s) = contains key s.
Proof.
  destruct (strip_spec s) as [l [r [E [Hl [Hr _]]]]].
  rewrite E at 2. symmetry. now apply contains_trim.
Qed.

End Trimming.

Section SuggestionFacts.

Local Open Scope string_scope.

Lemma lower_append (a b : string) : lower (a ++ b) = lower a ++ lower b.
Proof. induction a as [| c a IH]; simpl; [reflexivity | now rewrite IH]. Qed.

Lemma lower_char_space (c : ascii) : is_space (lower_char c) = is_space c.
Proof.
  destruct c as [[] [] [] [] [] [] [] []]; vm_compute; reflexivity.
Qed.

Lemma lower_spaces (s : string) :
  all is_space s = true -> all is_space (lower s) = true.
Proof.
  induction s as [| c s IH]; simpl; [reflexivity|].
  rewrite lower_char_space, !andb_true_iff. intros [Hc Hs]. auto.
Qed.

Lemma suggestions_loop_ext (kb : Dict.dict topic) (q q' : string) :
  (forall k, In k (Dict.keys kb) -> contains k q = contains k q') ->
  suggestions_loop kb q = suggestions_loop kb q'.
Proof.
  induction kb as [| [k e] kb IH]; simpl; intros H; [reflexivity|].
  rewrite (H k) by now left.
  destruct (contains k q'); [reflexivity|]. apply IH. intros k' Hin.
  apply H. now right.
Qed.

Lemma HEALTH_KNOWLEDGE_BASE_keys_tight :
  Forall (fun k => tight k = true) (Dict.keys HEALTH_KNOWLEDGE_BASE).
Proof. repeat constructor. Qed.

Lemma fetch_health_suggestions_padding (l query r : string) :
  all is_space l = true -> all is_space r = true ->
  fetch_health_suggestions (l ++ query ++ r) = fetch_health_suggestions query.
Proof.
  intros Hl Hr. unfold fetch_health_suggestions.
  rewrite (@suggestions_loop_ext HEALTH_KNOWLEDGE_BASE
             (strip (lower (l ++ query ++ r))) (strip (lower query)));
    [reflexivity|].
  intros k Hin.
  pose proof HEALTH_KNOWLEDGE_BASE_keys_tight as T.
  rewrite Forall_forall in T. specialize (T k Hin).
  rewrite !(@contains_strip k T), !lower_append.
  apply (@contains_trim k T); now apply lower_spaces.
Qed.

(** X11: the answer of [fetch_health_suggestions] depends neither on the
    case of the letters of the query nor on whitespace before and after
    it. *)
Theorem fetch_health_suggestions_insensitive :
  (forall query,
      fetch_health_suggestions (lower query) = fetch_health_suggestions query) /\
  (forall l query r,
      all is_space l = true -> all is_space r = true ->
      fetch_health_suggestions (l ++ query ++ r) =
      fetch_health_suggestions query).
Proof.
  split.
  - intros query. unfold fetch_health_suggestions.
    now rewrite lower_idempotent.
  - apply fetch_health_suggestions_padding.
Qed.

Lemma fetch_health_suggestions_insensitive_witness :
  fetch_health_suggestions ("  " ++ "Obesity" ++ String (ascii_of_nat 10) "") =
  fetch_health_suggestions "Obesity".
Proof.
  apply (proj2 fetch_health_suggestions_insensitive); reflexivity.
Defined.

(** X12: a query that is empty or made of whitespace only gets the
    not-found message. *)
Theorem fetch_health_suggestions_blank (query : string) :
  all is_space query = true ->
  fetch_health_suggestions query = not_found_message.
Proof.
  intros H. rewrite <- (append_empty_r query).
  change (query ++ "") with (query ++ "" ++ "").
  now rewrite (@fetch_health_suggestions_padding query "" "" H eq_refl).
Qed.

Lemma fetch_health_suggestions_blank_witness :
  fetch_health_suggestions "   " = not_found_message.
Proof.
  apply fetch_health_suggestions_blank. reflexivity.
Defined.

End SuggestionFacts.

(** * The session log *)

Section SessionLog.

Local Open Scope string_scope.

Lemma lower_upper_char (c : ascii) : lower_char (upper_char c) = lower_char c.
Proof.
  destruct c as [[] [] [] [] [] [] [] []]; vm_compute; reflexivity.
Qed.

Lemma lower_capitalize (s : string) : lower (capitalize s) = lower s.
Proof.
  destruct s as [| c s]; simpl; [reflexivity|].
  now rewrite lower_upper_char, lower_idempotent.
Qed.












(** X16: capitalizing the activity for the log loses nothing: lowercasing
    the logged name gives the catalog key back, so two different keys never
    share a logged name. *)
Theorem capitalize_keeps_keys (k k' : string) :
  In k (Dict.keys MET_VALUES) -> In k' (Dict.keys MET_VALUES) ->
  lower (capitalize k) = k /\ (capitalize k = capitalize k' -> k = k').
Proof.
  intros Hk Hk'. pose proof MET_VALUES_keys_lowercase as K.
  rewrite Forall_forall in K.
  assert (R : forall x, In x (Dict.keys MET_VALUES) -> lower (capitalize x) = x).
  { intros x Hx. rewrite lower_capitalize. now apply K. }
  split; [now apply R|].
  intros E. rewrite <- (R k Hk), <- (R k' Hk'). now rewrite E.
Qed.

Lemma capitalize_keeps_keys_witness :
  lower (capitalize "jumping rope") = "jumping rope" /\
  (capitalize "jumping rope" = capitalize "jumping rope" ->
   "jumping rope" = "jumping rope").
Proof.
  apply capitalize_keeps_keys; simpl; tauto.
Defined.

End SessionLog.

(** * Reading the duration off a text *)

Section FirstNumber.

Local Open Scope string_scope.

Lemma char_in_prefix (pre' : string) : forall pre x y (d : ascii),
    pre ++ x = pre' ++ String d y ->
    (String.length pre' < String.length pre)%nat ->
    exists a b, pre = a ++ String d b.
Proof.
  induction pre' as [| e pre' IH]; intros [| c pre] x y d E L; simpl in *;
    try lia.
  - inversion E; subst. now exists "", pre.
  - inversion E; subst.
    destruct (IH pre x y d H1) as [a [b ->]]; [lia|].
    now exists (String e a), b.
Qed.

Lemma first_duration_after_text (s pre ds ws post : string) :
  s = pre ++ ds ++ ws ++ "min" ++ post ->
  all (fun c => negb (is_digit c)) pre = true ->
  ds <> "" -> all is_digit ds = true -> all is_space ws = true ->
  first_duration s ds.
Proof.
  intros Hs Hpre N Hds Hws. exists pre. split.
  - exists ws, post. tauto.
  - intros pre' ds' [ws' [post' [Hs' [N' [Hds' _]]]]].
    destruct (Nat.le_gt_cases (String.length pre) (String.length pre'))
      as [L | L]; [assumption|].
    exfalso. destruct ds' as [| d t]; [contradiction|].
    simpl in Hds'. apply andb_true_iff in Hds'. destruct Hds' as [Hd _].
    rewrite Hs in Hs'. simpl in Hs'.
    destruct (@char_in_prefix _ _ _ _ _ Hs' L) as [a [b E]].
    rewrite E, all_append in Hpre. simpl in Hpre. rewrite Hd in Hpre.
    simpl in Hpre. rewrite andb_false_r in Hpre. discriminate Hpre.
Qed.

(** X17: when the first digits of the text are directly followed, up to
    whitespace, by "min", they are the duration: a text that reads, once
    lowercased, as a digit-free part, a digit run, whitespace and "min"
    parses to the value of that run, or fails for want of an activity. *)
Theorem parse_input_first_number (text pre ds ws post : string) :
  lower text = pre ++ ds ++ ws ++ "min" ++ post ->
  all (fun c => negb (is_digit c)) pre = true ->
  ds <> "" -> all is_digit ds = true -> all is_space ws = true ->
  parse_input text = Raise UnknownActivityError \/
  exists activity, parse_input text = Ok (activity, decimal ds).
Proof.
  intros Hs Hpre N Hds Hws.
  pose proof (@first_duration_after_text _ _ _ _ _ Hs Hpre N Hds Hws) as Hf.
  rewrite (parse_input_with_duration _ Hf).
  destruct (first_activity text) as [a |]; [right; now exists a | now left].
Qed.

Lemma parse_input_first_number_witness :
  parse_input "Ran for 025 mins, Running" = Raise UnknownActivityError \/
  exists activity,
    parse_input "Ran for 025 mins, Running" = Ok (activity, decimal "025").
Proof.
  apply (@parse_input_first_number "Ran for 025 mins, Running"
           "ran for " "025" " " "s, running"); reflexivity || discriminate.
Defined.

End FirstNumber.

Section SuggestionRange.

Local Open Scope string_scope.

Lemma suggestions_loop_some (kb : Dict.dict topic) (q suggestion : string) :
  suggestions_loop kb q = Some suggestion ->
  exists key entry,
    In (key, entry) kb /\ contains key q = true /\
    suggestion = format_topic entry.
Proof.
  induction kb as [| [k e] kb IH]; simpl; [discriminate|].
  destruct (contains k q) eqn:C.
  - intros H. inversion H. exists k, e. split; [now left | now split].
  - intros H. destruct (IH H) as [key [entry [Hin [Hc Hs]]]].
    exists key, entry. split; [now right | now split].
Qed.

(** X18: [fetch_health_suggestions] never advises on a topic the query does
    not name: its answer is the not-found message, or the text of an entry
    whose key occurs in the lowercased query. *)
Theorem fetch_health_suggestions_named_topic (query : string) :
  fetch_health_suggestions query = not_found_message \/
  exists key entry,
    In (key, entry) HEALTH_KNOWLEDGE_BASE /\
    substring key (lower query) /\
    fetch_health_suggestions query =
    "**" ++ description entry ++ "**" ++ nl ++ nl ++ "**Tips:**" ++ nl ++
    join nl (map (fun tip => "- " ++ tip) (tips entry)).
Proof.
  unfold fetch_health_suggestions.
  destruct (suggestions_loop HEALTH_KNOWLEDGE_BASE (strip (lower query)))
    as [suggestion |] eqn:E; [right | now left].
  apply suggestions_loop_some in E. destruct E as [key [entry [Hin [Hc ->]]]].
  exists key, entry. split; [assumption|]. split; [| reflexivity].
  apply contains_iff. rewrite <- Hc. symmetry. apply contains_strip.
  pose proof HEALTH_KNOWLEDGE_BASE_keys_tight as T.
  rewrite Forall_forall in T. apply T.
  change key with (fst (key, entry)). now apply in_map.
Qed.

End SuggestionRange.

(** * Arithmetic on doubles *)

Import F64.

(** ** Powers of two *)

Section Powers.

Local Open Scope Q_scope.

Lemma pow2_pos (z : Z) : 0 < 2 ^ z.
Proof. apply Qpower_0_lt. reflexivity. Qed.

Lemma pow2_plus (a b : Z) : 2 ^ (a + b) == 2 ^ a * 2 ^ b.
Proof. apply Qpower_plus. discriminate. Qed.

Lemma pow2_le (a b : Z) : (a <= b)%Z -> 2 ^ a <= 2 ^ b.
Proof. intros H. apply Qpower_le_compat_l; [assumption | discriminate]. Qed.


Lemma pow2_lt_inv (a b : Z) : 2 ^ a < 2 ^ b -> (a < b)%Z.
Proof. intros H. apply Qpower_lt_compat_l_inv with 2; [assumption | reflexivity]. Qed.

Lemma pow2_Z (k : Z) : (0 <= k)%Z -> inject_Z (2 ^ k) == 2 ^ k.
Proof. intros H. now rewrite Zpower_Qpower. Qed.

Lemma pow2_succ (a : Z) : 2 ^ (a + 1) == 2 * 2 ^ a.
Proof. rewrite pow2_plus. change (2 ^ 1) with 2. ring. Qed.

Lemma pow2_pred (a : Z) : 2 * 2 ^ (a - 1) == 2 ^ a.
Proof. rewrite <- pow2_succ. now replace (a - 1 + 1)%Z with a by lia. Qed.

(** Dividing by a power of two shifts the exponent. *)
Lemma pow2_div (a b : Z) : 2 ^ a / 2 ^ b == 2 ^ (a - b).
Proof.
  replace a with (a - b + b)%Z at 1 by lia. rewrite pow2_plus.
  field. pose proof (pow2_pos b). lra.
Qed.

End Powers.

(** ** The leading bit of a rational *)

Section Logarithm.

Local Open Scope Q_scope.

Lemma ilog2_spec (q : Q) :
  0 < q -> 2 ^ ilog2 q <= q /\ q < 2 ^ (ilog2 q + 1).
Proof.
  intros Hq. unfold ilog2.
  destruct q as [n d]. cbn [Qnum Qden].
  assert (Hn : (0 < n)%Z).
  { unfold Qlt in Hq. simpl in Hq. lia. }
  set (a := Z.log2 n). set (b := Z.log2 (Zpos d)).
  destruct (Z.log2_spec n Hn) as [An Bn]. fold a in An, Bn.
  destruct (Z.log2_spec (Zpos d) eq_refl) as [Ad Bd]. fold b in Ad, Bd.
  assert (Ha : (0 <= a)%Z) by apply Z.log2_nonneg.
  assert (Hb : (0 <= b)%Z) by apply Z.log2_nonneg.
  assert (E : n # d == inject_Z n / inject_Z (Zpos d)) by apply Qmake_Qdiv.
  assert (Qn1 : 2 ^ a <= inject_Z n).
  { rewrite <- pow2_Z by assumption. now rewrite <- Zle_Qle. }
  assert (Qn2 : inject_Z n < 2 ^ (a + 1)).
  { rewrite <- pow2_Z by lia. rewrite <- Zlt_Qlt. now rewrite <- Z.add_1_r in Bn. }
  assert (Qd1 : 2 ^ b <= inject_Z (Zpos d)).
  { rewrite <- pow2_Z by assumption. now rewrite <- Zle_Qle. }
  assert (Qd2 : inject_Z (Zpos d) < 2 ^ (b + 1)).
  { rewrite <- pow2_Z by lia. rewrite <- Zlt_Qlt. now rewrite <- Z.add_1_r in Bd. }
  assert (Pd : 0 < inject_Z (Zpos d)) by reflexivity.
  pose proof (pow2_pos (a - b)) as P0.
  pose proof (pow2_pos a) as Pa. pose proof (pow2_pos b) as Pb.
  assert (Eab : 2 ^ a == 2 ^ (a - b) * 2 ^ b).
  { rewrite <- pow2_plus. now replace (a - b + b)%Z with a by lia. }
  assert (Lo : 2 ^ (a - b - 1) <= n # d).
  { rewrite E. apply Qle_shift_div_l; [assumption|].
    apply Qle_trans with (2 ^ (a - b - 1) * 2 ^ (b + 1)).
    - apply Qmult_le_l; [apply pow2_pos | now apply Qlt_le_weak].
    - rewrite <- pow2_plus. now replace (a - b - 1 + (b + 1))%Z with a by lia. }
  assert (Hi : n # d < 2 ^ (a - b + 1)).
  { rewrite E. apply Qlt_shift_div_r; [assumption|].
    apply Qlt_le_trans with (2 ^ (a + 1)); [assumption|].
    replace (a + 1)%Z with (a - b + 1 + b)%Z by lia. rewrite pow2_plus.
    apply Qmult_le_l; [apply pow2_pos | assumption]. }
  destruct (Qle_bool (2 ^ (a - b)) (n # d)) eqn:T.
  - apply Qle_bool_iff in T. now split.
  - assert (T' : ~ 2 ^ (a - b) <= n # d).
    { intros C. apply Qle_bool_iff in C. congruence. }
    split; [assumption|].
    replace (a - b - 1 + 1)%Z with (a - b)%Z by lia.
    now apply Qnot_le_lt.
Qed.

Lemma ilog2_unique (q : Q) (a : Z) :
  2 ^ a <= q -> q < 2 ^ (a + 1) -> ilog2 q = a.
Proof.
  intros Lo Hi.
  assert (Hq : 0 < q) by (pose proof (pow2_pos a); lra).
  destruct (ilog2_spec Hq) as [Lo' Hi'].
  assert (ilog2 q < a + 1)%Z by (apply pow2_lt_inv; lra).
  assert (a < ilog2 q + 1)%Z by (apply pow2_lt_inv; lra).
  lia.
Qed.

Lemma ilog2_comp (q q' : Q) : 0 < q -> q == q' -> ilog2 q = ilog2 q'.
Proof.
  intros Hq E. destruct (ilog2_spec Hq) as [Lo Hi].
  symmetry. apply ilog2_unique; now rewrite <- E.
Qed.


Lemma ilog2_below (q : Q) (k : Z) : 0 < q -> q < 2 ^ k -> (ilog2 q < k)%Z.
Proof.
  intros Hq H. destruct (ilog2_spec Hq) as [Lo _].
  apply pow2_lt_inv. lra.
Qed.

End Logarithm.

(** ** Rounding to the nearest double *)

Section Nearest.

Local Open Scope Q_scope.

Lemma round_half_even_Z (n : Z) : round_half_even (inject_Z n) = n.
Proof.
  unfold round_half_even. rewrite Qfloor_Z.
  destruct (Qcompare_spec (inject_Z n - inject_Z n) (1 # 2)) as [E | L | G];
    try reflexivity; exfalso; lra.
Qed.

Lemma round_half_even_integer (x : Q) (n : Z) :
  x == inject_Z n -> round_half_even x = n.
Proof.
  intros E. rewrite (round_half_even_comp E). apply round_half_even_Z.
Qed.

Lemma exponent_low (q : Q) : (-1074 <= exponent q)%Z.
Proof. unfold exponent. lia. Qed.

(** The scaled magnitude lies below 2^53, and in the normal range it is at
    least 2^52. *)
Lemma scaled_below (q : Q) : 0 < q -> q / 2 ^ exponent q < 2 ^ 53.
Proof.
  intros Hq. destruct (ilog2_spec Hq) as [_ Hi].
  apply Qlt_shift_div_r; [apply pow2_pos|].
  rewrite <- pow2_plus.
  apply Qlt_le_trans with (2 ^ (ilog2 q + 1)); [assumption|].
  apply pow2_le. unfold exponent. lia.
Qed.


Lemma significand_range (q : Q) :
  0 < q -> (0 <= significand q <= 2 ^ 53)%Z.
Proof.
  intros Hq. unfold significand. split.
  - rewrite <- (round_half_even_Z 0). apply round_half_even_mono.
    apply Qle_shift_div_l; [apply pow2_pos|]. change (inject_Z 0) with 0. lra.
  - rewrite <- (round_half_even_Z (2 ^ 53)). apply round_half_even_mono.
    rewrite pow2_Z by lia. apply Qlt_le_weak. now apply scaled_below.
Qed.


Lemma nearest_zero (s : bool) (q : Q) : q <= 0 -> nearest s q = Zero s.
Proof.
  intros H. unfold nearest. apply Qle_bool_iff in H. now rewrite H.
Qed.

(** How [nearest] ends for a positive magnitude. *)
Lemma nearest_cases (s : bool) (q : Q) :
  0 < q ->
  nearest s q = Zero s /\ significand q = 0%Z \/
  nearest s q = Infinity s /\ (971 <= exponent q)%Z \/
  exists p e,
    nearest s q = Finite s p e /\ (Zpos p < 2 ^ 53)%Z /\
    (-1074 <= e <= 971)%Z /\ (e <= exponent q + 1)%Z /\
    magnitude p e == inject_Z (significand q) * 2 ^ exponent q.
Proof.
  intros Hq. unfold nearest.
  assert (T : Qle_bool q 0 = false).
  { destruct (Qle_bool q 0) eqn:E; [| reflexivity].
    apply Qle_bool_iff in E. lra. }
  rewrite T.
  pose proof (significand_range Hq) as [M0 M1].
  pose proof (exponent_low q) as El.
  destruct (Z.eqb_spec (significand q) (2 ^ 53)) as [E53 | N53].
  - change (2 ^ 52)%Z with (Zpos (2 ^ 52)).
    destruct (Z.ltb_spec 971 (exponent q + 1)) as [O | O].
    + right. left. split; [reflexivity | lia].
    + right. right. exists (2 ^ 52)%positive, (exponent q + 1)%Z.
      split; [reflexivity|]. split; [reflexivity|]. split; [lia|].
      split; [lia|].
      unfold magnitude. rewrite E53, pow2_succ.
      change (inject_Z (2 ^ 53)) with (2 * inject_Z (Zpos (2 ^ 52))). ring.
  - destruct (significand q) as [| p | p] eqn:Sg.
    + left. now split.
    + destruct (Z.ltb_spec 971 (exponent q)) as [O | O].
      * right. left. split; [reflexivity | lia].
      * right. right. exists p, (exponent q).
        split; [reflexivity|]. split; [lia|]. split; [lia|]. split; [lia|].
        reflexivity.
    + lia.
Qed.

Lemma nearest_finite_below (s : bool) (q : Q) :
  q < 2 ^ 1023 -> forall t, nearest s q <> Infinity t.
Proof.
  intros Hq t. destruct (Qlt_le_dec 0 q) as [Pos | Neg].
  - destruct (nearest_cases s Pos) as [[E _] | [[E O] | [p [e [E _]]]]];
      rewrite E; try discriminate.
    exfalso. pose proof (@ilog2_below q 1023 Pos Hq). unfold exponent in O. lia.
  - rewrite (nearest_zero s Neg). discriminate.
Qed.

Lemma nearest_comp (s : bool) (q q' : Q) :
  q == q' -> nearest s q = nearest s q'.
Proof.
  intros E. destruct (Qlt_le_dec 0 q) as [Pos | Neg].
  - assert (Eb : Qle_bool q 0 = Qle_bool q' 0).
    { apply Qleb_comp; [assumption | reflexivity]. }
    assert (Ee : exponent q = exponent q').
    { unfold exponent. now rewrite (@ilog2_comp q q' Pos E). }
    assert (Es : significand q = significand q').
    { unfold significand. rewrite <- Ee. apply round_half_even_comp.
      apply Qdiv_comp; [assumption | reflexivity]. }
    unfold nearest. now rewrite Eb, Ee, Es.
  - rewrite !nearest_zero; [reflexivity | now rewrite <- E | assumption].
Qed.

Lemma nearest_opp (s : bool) (q : Q) : nearest (negb s) q = opp (nearest s q).
Proof.
  unfold nearest. destruct (Qle_bool q 0); [reflexivity|].
  destruct (significand q =? 2 ^ 53)%Z.
  - change (2 ^ 52)%Z with (Zpos (2 ^ 52)). cbv beta iota.
    destruct (971 <? exponent q + 1)%Z; reflexivity.
  - destruct (significand q); try reflexivity.
    destruct (971 <? exponent q)%Z; reflexivity.
Qed.

End Nearest.

(** ** The doubles the format holds *)

Section Representable.

Local Open Scope Q_scope.

Lemma magnitude_pos (p : positive) (e : Z) : 0 < magnitude p e.
Proof.
  unfold magnitude. apply Qmult_lt_0_compat; [reflexivity | apply pow2_pos].
Qed.

Lemma nearest_representable (s : bool) (q : Q) : representable (nearest s q).
Proof.
  destruct (Qlt_le_dec 0 q) as [Pos | Neg].
  - destruct (nearest_cases s Pos) as [[E _] | [[E _] | [p [e [E [Hp [He _]]]]]]];
      rewrite E; simpl; auto.
  - now rewrite (nearest_zero s Neg).
Qed.

Lemma fmul_representable (x y : float) : representable (fmul x y).
Proof.
  destruct x, y; simpl; auto; apply nearest_representable.
Qed.

Lemma fdiv_representable (x y : float) : representable (fdiv x y).
Proof.
  destruct x, y; simpl; auto; apply nearest_representable.
Qed.

Lemma ilog2_magnitude (p : positive) (e : Z) :
  ilog2 (magnitude p e) = (Z.log2 (Zpos p) + e)%Z.
Proof.
  destruct (Z.log2_spec (Zpos p) eq_refl) as [Lo Hi].
  pose proof (Z.log2_nonneg (Zpos p)) as L0.
  pose proof (pow2_pos e) as Pe.
  apply ilog2_unique; unfold magnitude.
  - rewrite pow2_plus. apply Qmult_le_compat_r; [| lra].
    rewrite <- pow2_Z by assumption. now rewrite <- Zle_Qle.
  - replace (Z.log2 (Zpos p) + e + 1)%Z with (Z.log2 (Zpos p) + 1 + e)%Z by lia.
    rewrite pow2_plus. apply Qmult_lt_compat_r; [assumption|].
    rewrite <- pow2_Z by lia. rewrite <- Zlt_Qlt. now rewrite <- Z.add_1_r in Hi.
Qed.

(** A representable magnitude is its own nearest double. *)
Lemma nearest_exact (s : bool) (p : positive) (e : Z) :
  (Zpos p < 2 ^ 53)%Z -> (-1074 <= e <= 971)%Z ->
  exists p' e',
    nearest s (magnitude p e) = Finite s p' e' /\
    magnitude p' e' == magnitude p e.
Proof.
  intros Hp He. set (q := magnitude p e).
  pose proof (magnitude_pos p e) as Pos. fold q in Pos.
  assert (L : (Z.log2 (Zpos p) < 53)%Z) by (apply Z.log2_lt_pow2; lia).
  assert (Ee : (exponent q <= e)%Z).
  { unfold exponent, q. rewrite ilog2_magnitude. lia. }
  pose proof (exponent_low q) as El.
  set (k := (e - exponent q)%Z).
  assert (Sc : q / 2 ^ exponent q == inject_Z (Zpos p * 2 ^ k)).
  { unfold k. rewrite inject_Z_mult, pow2_Z by lia. rewrite <- pow2_div.
    pose proof (pow2_pos (exponent q)) as Pb.
    unfold q at 1, magnitude.
    generalize dependent (2 ^ exponent q). generalize (2 ^ e).
    intros a b Pb. field. lra. }
  assert (Sg : significand q = (Zpos p * 2 ^ k)%Z).
  { unfold significand. now apply round_half_even_integer. }
  assert (S53 : (significand q < 2 ^ 53)%Z).
  { rewrite Sg. rewrite Zlt_Qlt, <- Sc, pow2_Z by lia. now apply scaled_below. }
  assert (S0 : (0 < significand q)%Z).
  { rewrite Sg. apply Z.mul_pos_pos; [reflexivity | apply Z.pow_pos_nonneg; lia]. }
  destruct (nearest_cases s Pos) as [[_ C] | [[E O] | [p' [e' [E [_ [_ [_ M]]]]]]]].
  - lia.
  - exfalso. unfold nearest in E.
    assert (T : Qle_bool q 0 = false).
    { destruct (Qle_bool q 0) eqn:B; [| reflexivity].
      apply Qle_bool_iff in B. lra. }
    rewrite T in E.
    destruct (Z.eqb_spec (significand q) (2 ^ 53)) as [C | C]; [lia|].
    destruct (significand q) as [| p0 | p0]; try lia.
    destruct (Z.ltb_spec 971 (exponent q)); [lia | discriminate E].
  - exists p', e'. split; [assumption|].
    rewrite M, Sg. unfold q at 2, magnitude. unfold k.
    rewrite inject_Z_mult, pow2_Z by lia.
    rewrite <- Qmult_assoc, <- pow2_plus.
    now replace (e - exponent q + exponent q)%Z with e by lia.
Qed.

(** Rounding a double to two decimals never overflows. *)
Lemma round_two_returns (x : float) :
  representable x -> exists r, F64.round x 2 = Ok r /\ representable r.
Proof.
  destruct x as [s | s p e | s |]; intros R;
    try (eexists; split; [reflexivity | exact I]).
  destruct R as [Hp He]. cbn [F64.round].
  change (323 <? 2)%Z with false. change (2 <? -308)%Z with false.
  cbv iota. change (10 ^ 2) with 100.
  set (n := round_half_even (magnitude p e * 100)).
  assert (F : forall t, nearest s (inject_Z n / 100) <> Infinity t).
  { destruct (Z.le_gt_cases 0 e) as [Epos | Eneg].
    - (* an integer: rounding changes nothing *)
      assert (En : n = (Zpos p * 2 ^ e * 100)%Z).
      { unfold n. apply round_half_even_integer. unfold magnitude.
        rewrite !inject_Z_mult, pow2_Z by assumption. reflexivity. }
      assert (Eq : inject_Z n / 100 == magnitude p e).
      { rewrite En. unfold magnitude.
        rewrite !inject_Z_mult, pow2_Z by assumption.
        change (inject_Z 100) with 100. field. }
      rewrite (@nearest_comp s _ _ Eq).
      destruct (@nearest_exact s p e Hp He) as [p' [e' [E _]]].
      rewrite E. discriminate.
    - (* below 2^53 *)
      apply nearest_finite_below.
      assert (M : magnitude p e < 2 ^ 53).
      { unfold magnitude.
        apply Qlt_le_trans with (2 ^ 53 * 2 ^ e).
        - apply Qmult_lt_compat_r; [apply pow2_pos|].
          rewrite <- pow2_Z by lia. now rewrite <- Zlt_Qlt.
        - rewrite <- pow2_plus. apply pow2_le. lia. }
      destruct (round_half_even_error (magnitude p e * 100)) as [_ Hi].
      fold n in Hi.
      apply Qlt_shift_div_r; [reflexivity|].
      assert (B : 2 ^ 53 * 100 + 1 <= 2 ^ 1023 * 100).
      { apply Qle_trans with (2 ^ 54 * 100).
        - vm_compute. discriminate.
        - apply Qmult_le_compat_r; [apply pow2_le; lia | discriminate]. }
      lra. }
  unfold finite_or_overflow.
  destruct (nearest s (inject_Z n / 100)) as [t | t p' e' | t |] eqn:E.
  - eexists. split; [reflexivity | exact I].
  - eexists. split; [reflexivity|].
    rewrite <- E. apply nearest_representable.
  - exfalso. now apply (F t).
  - eexists. split; [reflexivity | exact I].
Qed.

End Representable.

(** ** Conversions and divisions that return *)

Section Conversions.

Local Open Scope Q_scope.

Lemma finite_or_overflow_error (x : float) (e : exn) :
  finite_or_overflow x = Raise e -> e = OverflowError.
Proof. destruct x; simpl; intros H; now inversion H. Qed.

Lemma finite_or_overflow_ok (x : float) :
  (forall t, x <> Infinity t) -> finite_or_overflow x = Ok x.
Proof. destruct x; simpl; intros H; try reflexivity. now destruct (H negative). Qed.

Lemma finite_or_overflow_opp (x : float) (k : float -> result float) :
  (forall y, k (opp y) = k y) ->
  bind (finite_or_overflow (opp x)) k = bind (finite_or_overflow x) k.
Proof.
  intros H. destruct x; simpl; try reflexivity;
    match goal with |- k _ = k ?b => exact (H b) end.
Qed.

Lemma float_of_int_fits (n : Z) :
  (Z.abs n < 2 ^ 1023)%Z ->
  exists x, float_of_int n = Ok x /\ representable x.
Proof.
  intros H. unfold float_of_int.
  rewrite finite_or_overflow_ok.
  - eexists. split; [reflexivity | apply nearest_representable].
  - apply nearest_finite_below.
    rewrite <- pow2_Z by lia. now rewrite <- Zlt_Qlt.
Qed.

Lemma float_of_int_error (n : Z) (e : exn) :
  float_of_int n = Raise e -> e = OverflowError.
Proof. apply finite_or_overflow_error. Qed.

Lemma to_float_fits (a : num) : fits a -> exists x, to_float a = Ok x.
Proof.
  destruct a as [n | x]; simpl; intros H.
  - destruct (float_of_int_fits n H) as [x [E _]]. now exists x.
  - now exists x.
Qed.

Lemma to_float_error (a : num) (e : exn) :
  to_float a = Raise e -> e = OverflowError /\ ~ fits a.
Proof.
  destruct a as [n | x]; simpl; intros H; [| discriminate H].
  split; [now apply float_of_int_error with n|].
  intros F. destruct (float_of_int_fits n F) as [x [E _]]. congruence.
Qed.

Lemma int_truediv_fits (n d : Z) :
  (Z.abs n < 2 ^ 1023)%Z -> d <> 0%Z ->
  exists x, int_truediv n d = Ok x /\ representable x.
Proof.
  intros H N. unfold int_truediv.
  destruct (Z.eqb_spec d 0) as [E | _]; [contradiction|].
  rewrite finite_or_overflow_ok.
  - eexists. split; [reflexivity | apply nearest_representable].
  - apply nearest_finite_below.
    apply Qle_lt_trans with (inject_Z (Z.abs n)).
    + apply Qle_shift_div_r.
      * change 0 with (inject_Z 0). rewrite <- Zlt_Qlt. lia.
      * rewrite <- inject_Z_mult, <- Zle_Qle. nia.
    + rewrite <- pow2_Z by lia. now rewrite <- Zlt_Qlt.
Qed.

Lemma int_truediv_error (n d : Z) (e : exn) :
  d <> 0%Z -> int_truediv n d = Raise e -> e = OverflowError.
Proof.
  intros N. unfold int_truediv.
  destruct (Z.eqb_spec d 0) as [E | _]; [contradiction|].
  apply finite_or_overflow_error.
Qed.

Lemma float_of_sixty : float_of_int 60 = Ok sixty.
Proof. vm_compute. reflexivity. Qed.

Lemma float_of_hundred : float_of_int 100 = Ok hundred.
Proof. vm_compute. reflexivity. Qed.

(** [duration / 60] *)
Lemma truediv_sixty_fits (a : num) :
  fits a -> exists h, truediv a (Int 60) = Ok h /\ representable h.
Proof.
  destruct a as [n | x]; intros F.
  - apply int_truediv_fits; [exact F | discriminate].
  - cbn [truediv to_float bind]. rewrite float_of_sixty. cbn [bind is_zero sixty].
    eexists. split; [reflexivity | apply fdiv_representable].
Qed.

Lemma truediv_sixty_error (a : num) (e : exn) :
  truediv a (Int 60) = Raise e -> e = OverflowError /\ ~ fits a.
Proof.
  intros H. split.
  - destruct a as [n | x].
    + now apply int_truediv_error with n 60%Z.
    + cbn [truediv to_float bind] in H. rewrite float_of_sixty in H.
      discriminate H.
  - intros F. destruct (truediv_sixty_fits a F) as [h [E _]]. congruence.
Qed.

Lemma mul_fits (x : float) (b : num) :
  fits b -> exists y, mul x b = Ok y /\ representable y.
Proof.
  intros F. unfold mul. destruct (to_float_fits b F) as [y E]. rewrite E.
  eexists. split; [reflexivity | apply fmul_representable].
Qed.

Lemma mul_error (x : float) (b : num) (e : exn) :
  mul x b = Raise e -> e = OverflowError /\ ~ fits b.
Proof.
  unfold mul. destruct (to_float b) as [y |e'] eqn:E; simpl; intros H.
  - discriminate H.
  - inversion H; subst. now apply to_float_error.
Qed.

End Conversions.

(** ** The calorie estimate on doubles *)

Section CaloriesF64.

Local Open Scope string_scope.

Lemma F64_keys_distinct : NoDup (Dict.keys F64.MET_VALUES).
Proof. exact MET_VALUES_keys_distinct. Qed.

Lemma estimate_calories_returns (activity : string) (duration weight : num) :
  fits duration -> fits weight ->
  exists w h c,
    to_float weight = Ok w /\ truediv duration (Int 60) = Ok h /\
    F64.estimate_calories activity duration weight = Ok c /\
    F64.round
      (fmul (fmul (Dict.get F64.MET_VALUES activity (literal 3.5)) w) h) 2 =
    Ok c.
Proof.
  intros Fd Fw. unfold F64.estimate_calories.
  set (met := Dict.get F64.MET_VALUES activity (literal 3.5)).
  destruct (to_float_fits weight Fw) as [w Ew].
  destruct (truediv_sixty_fits duration Fd) as [h [Eh _]].
  destruct (@round_two_returns _ (fmul_representable (fmul met w) h)) as [c [Ec _]].
  exists w, h, c. split; [assumption|]. split; [assumption|].
  split; [| assumption].
  unfold mul. rewrite Ew. cbn [bind]. rewrite Eh. cbn [bind to_float].
  assumption.
Qed.

Lemma estimate_calories_error (activity : string) (duration weight : num)
    (e : exn) :
  F64.estimate_calories activity duration weight = Raise e ->
  e = OverflowError /\ ~ (fits duration /\ fits weight).
Proof.
  intros H. split.
  - unfold F64.estimate_calories in H.
    destruct (mul (Dict.get F64.MET_VALUES activity (literal 3.5)) weight)
      as [p | e1] eqn:E1; cbn [bind] in H.
    + destruct (truediv duration (Int 60)) as [h | e2] eqn:E2; cbn [bind] in H.
      * unfold mul in H. cbn [to_float bind] in H.
        destruct (@round_two_returns _ (fmul_representable p h)) as [c [Ec _]].
        rewrite Ec in H. discriminate H.
      * inversion H; subst. now apply truediv_sixty_error in E2.
    + inversion H; subst. now apply mul_error in E1.
  - intros [Fd Fw].
    destruct (@estimate_calories_returns activity _ _ Fd Fw) as [w [h [c [_ [_ [E _]]]]]].
    congruence.
Qed.

Lemma estimate_calories_returned (activity : string) (duration weight : num)
    (c : float) :
  F64.estimate_calories activity duration weight = Ok c ->
  exists w h,
    to_float weight = Ok w /\ truediv duration (Int 60) = Ok h /\
    F64.round
      (fmul (fmul (Dict.get F64.MET_VALUES activity (literal 3.5)) w) h) 2 =
    Ok c.
Proof.
  unfold F64.estimate_calories, mul.
  destruct (to_float weight) as [w | e1]; cbn [bind]; [| discriminate].
  destruct (truediv duration (Int 60)) as [h | e2]; cbn [bind to_float];
    [| discriminate].
  intros H. exists w, h. repeat split; assumption.
Qed.

End CaloriesF64.

(** ** The BMI on doubles *)

Section BmiF64.

Variable libm_pow : float -> float -> float.

Lemma pow_2_opp (x : float) : pow_2 libm_pow (opp x) = pow_2 libm_pow x.
Proof. destruct x; reflexivity. Qed.

Lemma pow_2_error (x : float) (e : exn) :
  pow_2 libm_pow x = Raise e -> e = OverflowError.
Proof.
  destruct x as [s | s m ex | s |]; cbn [pow_2]; intros H;
    try discriminate H.
  destruct (is_one (Finite false m ex)); [discriminate H|].
  now apply finite_or_overflow_error in H.
Qed.

Lemma fdiv_opp_l (x y : float) : fdiv (opp x) y = opp (fdiv x y).
Proof.
  destruct x as [s | s m e | s |], y as [t | t n f | t |]; simpl;
    try reflexivity; rewrite <- ?negb_xorb_l; try reflexivity.
  apply nearest_opp.
Qed.

Lemma truediv_neg_hundred (h : num) (k : float -> result float) :
  (forall y, k (opp y) = k y) ->
  bind (truediv (neg h) (Int 100)) k = bind (truediv h (Int 100)) k.
Proof.
  intros Hk. destruct h as [n | x].
  - cbn [neg truediv]. unfold int_truediv. cbn [Z.eqb].
    rewrite Z.abs_opp.
    destruct (Z.eq_dec n 0) as [-> | N]; [reflexivity|].
    replace (- n <? 0)%Z with (negb (n <? 0)%Z).
    + rewrite <- negb_xorb_l, nearest_opp. now apply finite_or_overflow_opp.
    + destruct (Z.ltb_spec n 0), (Z.ltb_spec (- n) 0); simpl; lia || reflexivity.
  - cbn [neg truediv to_float bind]. rewrite float_of_hundred.
    cbn [bind is_zero hundred]. rewrite fdiv_opp_l. apply Hk.
Qed.

Lemma calculate_bmi_neg (weight height_cm : num) :
  F64.calculate_bmi libm_pow weight (neg height_cm) =
  F64.calculate_bmi libm_pow weight height_cm.
Proof.
  unfold F64.calculate_bmi. apply truediv_neg_hundred.
  intros y. now rewrite pow_2_opp.
Qed.

Lemma truediv_float_error (a : num) (y : float) (e : exn) :
  truediv a (Float y) = Raise e -> e = ZeroDivisionError \/ e = OverflowError.
Proof.
  destruct a as [n | x]; cbn [truediv to_float bind].
  - destruct (float_of_int n) as [x | e1] eqn:E1; cbn [bind].
    + destruct (is_zero y); intros H; [left; now inversion H | discriminate H].
    + intros H. inversion H; subst. right. now apply float_of_int_error with n.
  - destruct (is_zero y); intros H; [left; now inversion H | discriminate H].
Qed.

Lemma truediv_hundred_error (a : num) (e : exn) :
  truediv a (Int 100) = Raise e -> e = OverflowError.
Proof.
  destruct a as [n | x].
  - apply int_truediv_error. discriminate.
  - cbn [truediv to_float bind]. rewrite float_of_hundred. discriminate.
Qed.

Lemma round_error (x : float) (n : Z) (e : exn) :
  F64.round x n = Raise e -> e = OverflowError.
Proof.
  destruct x as [s | s m ex | s |]; cbn [F64.round]; intros H;
    try discriminate H.
  destruct (323 <? n)%Z; [discriminate H|].
  destruct (n <? -308)%Z; [discriminate H|].
  now apply finite_or_overflow_error in H.
Qed.

Lemma calculate_bmi_error (weight height_cm : num) (e : exn) :
  F64.calculate_bmi libm_pow weight height_cm = Raise e ->
  e = ZeroDivisionError \/ e = OverflowError.
Proof.
  unfold F64.calculate_bmi.
  destruct (truediv height_cm (Int 100)) as [hm | e1] eqn:E1; cbn [bind].
  - destruct (pow_2 libm_pow hm) as [sq | e2] eqn:E2; cbn [bind].
    + destruct (truediv weight (Float sq)) as [b | e3] eqn:E3; cbn [bind].
      * intros H. right. now apply round_error in H.
      * intros H. inversion H; subst. now apply truediv_float_error in E3.
    + intros H. inversion H; subst. right. now apply pow_2_error in E2.
  - intros H. inversion H; subst. right. now apply truediv_hundred_error in E1.
Qed.

Lemma calculate_bmi_zero_height (weight height_cm : num) :
  fits weight ->
  height_cm = Int 0 \/ (exists s, height_cm = Float (Zero s)) ->
  F64.calculate_bmi libm_pow weight height_cm = Raise ZeroDivisionError.
Proof.
  intros F H. destruct (to_float_fits weight F) as [w Ew].
  assert (E : bind (truediv height_cm (Int 100)) (pow_2 libm_pow) =
              Ok (Zero false)).
  { destruct H as [-> | [s ->]].
    - reflexivity.
    - cbn [truediv to_float bind]. rewrite float_of_hundred. reflexivity. }
  unfold F64.calculate_bmi.
  destruct (truediv height_cm (Int 100)) as [hm | e1]; cbn [bind] in *;
    [| discriminate E].
  rewrite E. cbn [bind].
  destruct weight as [n | x]; cbn [truediv to_float bind] in *.
  - now rewrite Ew.
  - reflexivity.
Qed.

Lemma calculate_bmi_value (weight height_cm : num) (hm sq w : float) :
  truediv height_cm (Int 100) = Ok hm ->
  pow_2 libm_pow hm = Ok sq -> is_zero sq = false ->
  to_float weight = Ok w ->
  exists bmi,
    F64.calculate_bmi libm_pow weight height_cm = Ok bmi /\
    F64.round (fdiv w sq) 2 = Ok bmi.
Proof.
  intros E1 E2 Z Ew.
  destruct (@round_two_returns _ (fdiv_representable w sq)) as [bmi [Eb _]].
  exists bmi. split; [| assumption].
  unfold F64.calculate_bmi. rewrite E1. cbn [bind]. rewrite E2. cbn [bind].
  destruct weight as [n | x]; cbn [truediv to_float bind] in *.
  - rewrite Ew. cbn [bind]. now rewrite Z.
  - inversion Ew; subst. now rewrite Z.
Qed.

Lemma calculate_bmi_returned (weight height_cm : num) (bmi : float) :
  F64.calculate_bmi libm_pow weight height_cm = Ok bmi ->
  exists hm sq w,
    truediv height_cm (Int 100) = Ok hm /\
    pow_2 libm_pow hm = Ok sq /\ is_zero sq = false /\
    to_float weight = Ok w /\
    F64.round (fdiv w sq) 2 = Ok bmi.
Proof.
  unfold F64.calculate_bmi.
  destruct (truediv height_cm (Int 100)) as [hm | e1]; cbn [bind];
    [| discriminate].
  destruct (pow_2 libm_pow hm) as [sq | e2] eqn:E2; cbn [bind];
    [| discriminate].
  assert (E : truediv weight (Float sq) =
              bind (to_float weight)
                (fun w => if is_zero sq then Raise ZeroDivisionError
                          else Ok (fdiv w sq))).
  { destruct weight; reflexivity. }
  rewrite E.
  destruct (to_float weight) as [w | e3]; cbn [bind]; [| discriminate].
  destruct (is_zero sq) eqn:Z; cbn [bind]; [discriminate|].
  intros H. exists hm, sq, w. repeat split; assumption.
Qed.

End BmiF64.

(** ** Rounding to the nearest double keeps the order *)

Section Monotone.

Local Open Scope Q_scope.




Lemma rounded_zero (q : Q) : q <= 0 -> nearest false q = Zero false.
Proof. apply nearest_zero. Qed.








End Monotone.

(** ** The steps of the calorie estimate keep the order *)

Section Steps.

Local Open Scope Q_scope.












End Steps.

(** ** The calorie estimate keeps the order *)

Section CaloriesOrder.

Local Open Scope Q_scope.





End CaloriesOrder.

(** ** Claims on [calculate_bmi], on doubles *)

Section BmiClaims.

Local Open Scope string_scope.

(** C1, amended: [calculate_bmi] has no check of the height and raises no
    error of its own.  Whatever the C library's [pow] computes: a failure
    is the [ZeroDivisionError] of the division or an [OverflowError]; a
    zero height raises [ZeroDivisionError]; when [(height_cm / 100) ** 2]
    is computed and is not zero, the call returns
    [round(weight / (height_cm / 100) ** 2, 2)], and it returns nothing
    else; and a negative height has the outcome of its absolute value. *)
Theorem calculate_bmi_height (libm_pow : float -> float -> float)
    (weight height_cm : num) :
  (forall e, F64.calculate_bmi libm_pow weight height_cm = Raise e ->
             e = ZeroDivisionError \/ e = OverflowError) /\
  (fits weight ->
   height_cm = Int 0 \/ (exists s, height_cm = Float (Zero s)) ->
   F64.calculate_bmi libm_pow weight height_cm = Raise ZeroDivisionError) /\
  (forall height_m squared w,
      F64.truediv height_cm (Int 100) = Ok height_m ->
      pow_2 libm_pow height_m = Ok squared ->
      is_zero squared = false ->
      to_float weight = Ok w ->
      exists bmi,
        F64.calculate_bmi libm_pow weight height_cm = Ok bmi /\
        F64.round (fdiv w squared) 2 = Ok bmi) /\
  (forall bmi,
      F64.calculate_bmi libm_pow weight height_cm = Ok bmi ->
      exists height_m squared w,
        F64.truediv height_cm (Int 100) = Ok height_m /\
        pow_2 libm_pow height_m = Ok squared /\
        is_zero squared = false /\
        to_float weight = Ok w /\
        F64.round (fdiv w squared) 2 = Ok bmi) /\
  F64.calculate_bmi libm_pow weight (neg height_cm) =
  F64.calculate_bmi libm_pow weight height_cm.
Proof.
  split; [intros e; apply calculate_bmi_error|].
  split; [apply calculate_bmi_zero_height|].
  split; [intros hm sq w; apply calculate_bmi_value|].
  split; [intros bmi; apply calculate_bmi_returned | apply calculate_bmi_neg].
Qed.

Lemma calculate_bmi_height_witness :
  F64.calculate_bmi correctly_rounded_square (Int 70) (Int 0) =
  Raise ZeroDivisionError /\
  exists bmi,
    F64.calculate_bmi correctly_rounded_square (Int 70) (Int (-170)) = Ok bmi /\
    F64.round (fdiv (literal 70) (literal 2.8899999999999997)) 2 = Ok bmi.
Proof.
  split.
  - apply (proj1 (proj2 (calculate_bmi_height correctly_rounded_square
                           (Int 70) (Int 0)))).
    + vm_compute. reflexivity.
    + left. reflexivity.
  - apply (proj1 (proj2 (proj2 (calculate_bmi_height correctly_rounded_square
                                  (Int 70) (Int (-170)))))
             (literal (-1.7)) (literal 2.8899999999999997) (literal 70));
      vm_compute; reflexivity.
Defined.

(** C10: [calculate_bmi(weight, - height_cm)] has the outcome of
    [calculate_bmi(weight, height_cm)], whatever the C library's [pow]
    computes: the same float when one of them returns, the same error when
    one of them fails.  A negative height is so treated as its absolute
    value. *)
Theorem calculate_bmi_sign_flip (libm_pow : float -> float -> float)
    (weight height_cm : num) :
  F64.calculate_bmi libm_pow weight (neg height_cm) =
  F64.calculate_bmi libm_pow weight height_cm /\
  (forall bmi,
      F64.calculate_bmi libm_pow weight height_cm = Ok bmi ->
      F64.calculate_bmi libm_pow weight (neg height_cm) = Ok bmi) /\
  (forall bmi,
      F64.calculate_bmi libm_pow weight (neg height_cm) = Ok bmi ->
      F64.calculate_bmi libm_pow weight height_cm = Ok bmi).
Proof.
  pose proof (calculate_bmi_neg libm_pow weight height_cm) as E.
  split; [assumption|]. split; intros bmi H; congruence.
Qed.

Lemma calculate_bmi_sign_flip_witness :
  F64.calculate_bmi correctly_rounded_square (Int 70) (Int (-170)) =
  Ok (literal 24.22).
Proof.
  apply (proj1 (proj2 (calculate_bmi_sign_flip correctly_rounded_square
                         (Int 70) (Int 170)))).
  vm_compute. reflexivity.
Defined.

(** Two sidebar inputs at which the exact quotient lies halfway between two
    hundredths: the double below the tie rounds down. *)
Lemma calculate_bmi_ties :
  F64.calculate_bmi correctly_rounded_square (Int 56) (Int 160) =
  Ok (literal 21.87) /\
  F64.calculate_bmi correctly_rounded_square (Int 88) (Int 160) =
  Ok (literal 34.37).
Proof. split; vm_compute; reflexivity. Qed.

End BmiClaims.

(** ** Claims on [estimate_calories], on doubles *)

Section CalorieFloatClaims.

Local Open Scope string_scope.

(** C5, as stated, fails: the estimate can fail.  A duration of [10 ** 400]
    minutes, which [parse_input] returns for a text with that many digits,
    is too large for the division by 60. *)
Lemma estimate_calories_overflow :
  F64.estimate_calories "walking" (Int (10 ^ 400)) (Int 70) =
  Raise OverflowError /\
  fails (F64.estimate_calories "walking" (Int (10 ^ 400)) (Int 70)).
Proof.
  assert (E : F64.estimate_calories "walking" (Int (10 ^ 400)) (Int 70) =
              Raise OverflowError) by (vm_compute; reflexivity).
  split; [assumption | now exists OverflowError].
Qed.

(** C5, amended: the MET value is the one the catalog stores for the
    activity, and 3.5 for an activity that is not a key.  With a duration
    and a weight that convert to doubles, [estimate_calories] returns
    [round(met * weight * (duration / 60), 2)], each operation rounded to
    the nearest double, and it returns nothing else.  It fails only with
    [OverflowError], and only when the duration or the weight is an [int]
    beyond the range of doubles. *)
Theorem estimate_calories_outcomes (activity : string) (duration weight : num) :
  exists met : float,
    (forall m, In (activity, m) F64.MET_VALUES -> met = m) /\
    (~ In activity (Dict.keys F64.MET_VALUES) -> met = literal 3.5) /\
    (fits duration -> fits weight ->
     exists w h calories,
       to_float weight = Ok w /\
       F64.truediv duration (Int 60) = Ok h /\
       F64.estimate_calories activity duration weight = Ok calories /\
       F64.round (fmul (fmul met w) h) 2 = Ok calories) /\
    (forall calories,
        F64.estimate_calories activity duration weight = Ok calories ->
        exists w h,
          to_float weight = Ok w /\
          F64.truediv duration (Int 60) = Ok h /\
          F64.round (fmul (fmul met w) h) 2 = Ok calories) /\
    (forall e, F64.estimate_calories activity duration weight = Raise e ->
               e = OverflowError /\ ~ (fits duration /\ fits weight)).
Proof.
  exists (Dict.get F64.MET_VALUES activity (literal 3.5)).
  split; [| split; [| split; [| split]]].
  - intros m Hin. now apply get_present; [apply F64_keys_distinct|].
  - apply get_absent.
  - apply estimate_calories_returns.
  - intros c. apply estimate_calories_returned.
  - intros e. apply estimate_calories_error.
Qed.

Lemma estimate_calories_outcomes_witness :
  exists w h calories,
    to_float (Int 41) = Ok w /\
    F64.truediv (Int 33) (Int 60) = Ok h /\
    F64.estimate_calories "walking" (Int 33) (Int 41) = Ok calories /\
    F64.round (fmul (fmul (literal 3.5) w) h) 2 = Ok calories.
Proof.
  destruct (estimate_calories_outcomes "walking" (Int 33) (Int 41))
    as [met [Hin [_ [H _]]]].
  rewrite <- (Hin (literal 3.5)) by (simpl; tauto).
  apply H; vm_compute; reflexivity.
Defined.

(** The estimate at a tie of the exact product, and at the default. *)
Lemma estimate_calories_examples :
  F64.estimate_calories "walking" (Int 33) (Int 41) = Ok (literal 78.93) /\
  F64.estimate_calories "cycling" (Int 30) (Int 70) = Ok (literal 238.0) /\
  F64.estimate_calories "juggling" (Int 30) (Int 70) = Ok (literal 122.5).
Proof. repeat split; vm_compute; reflexivity. Qed.




(** X4: after a successful parse the calorie estimate never falls back on
    the default MET value: the activity has a value in the catalog, and the
    estimate, when the duration and the weight convert to doubles, is
    computed from it. *)
Theorem parse_input_then_estimate (text activity : string) (duration : Z) :
  parse_input text = Ok (activity, duration) ->
  exists met,
    In (activity, met) F64.MET_VALUES /\
    (forall default, Dict.get F64.MET_VALUES activity default = met) /\
    (forall weight,
        fits (Int duration) -> fits weight ->
        exists w h calories,
          to_float weight = Ok w /\
          F64.truediv (Int duration) (Int 60) = Ok h /\
          F64.estimate_calories activity (Int duration) weight = Ok calories /\
          F64.round (fmul (fmul met w) h) 2 = Ok calories).
Proof.
  intros H. apply parse_input_ok in H. destruct H as [ds [_ [_ A]]].
  apply first_activity_key in A. destruct A as [Hin _].
  destruct (@key_has_value _ F64.MET_VALUES activity Hin) as [met Hmet].
  assert (G : forall default, Dict.get F64.MET_VALUES activity default = met).
  { intros default. now apply get_present; [apply F64_keys_distinct|]. }
  exists met. split; [assumption|]. split; [assumption|].
  intros weight Fd Fw. rewrite <- (G (literal 3.5)).
  now apply estimate_calories_returns.
Qed.

Lemma parse_input_then_estimate_witness :
  exists met,
    In ("cycling", met) F64.MET_VALUES /\
    (forall default, Dict.get F64.MET_VALUES "cycling" default = met) /\
    (forall weight,
        fits (Int 30) -> fits weight ->
        exists w h calories,
          to_float weight = Ok w /\
          F64.truediv (Int 30) (Int 60) = Ok h /\
          F64.estimate_calories "cycling" (Int 30) weight = Ok calories /\
          F64.round (fmul (fmul met w) h) 2 = Ok calories).
Proof.
  apply (@parse_input_then_estimate "I did 30 minutes of cycling").
  vm_compute. reflexivity.
Defined.

End CalorieFloatClaims.
